(** * smart-storage: a shallow embedding of [src/src/index.ts] and proofs of its contract

    The store engine ([make]) wraps a Web-Storage-like backend (the in-memory
    fallback [memoryStorage] of the source, or a host storage that may refuse
    writes), serialises values into a JSON envelope [{v, e?}], expires entries
    lazily on read, and publishes change events through an emitter.
    [withPrefix] builds a namespaced store on top of any store.

    Effects are modelled with a state-and-exception monad [M] over a [world]
    holding the backend entries, the clock ([Date.now()]), the emitter's
    listener set and a record of every published event and every delivery. *)

From Stdlib Require Import String Ascii ZArith List Bool Lia.
Import ListNotations.
Set Warnings "-register-all".
Local Open Scope Z_scope.

(** ** JavaScript values and JSON documents *)

(** A JSON document, as produced by [JSON.stringify] and accepted by
    [JSON.parse] (numbers are integers: times and TTLs are milliseconds). *)
Inductive json : Type :=
| JNull
| JBool (b : bool)
| JNum (z : Z)
| JStr (s : string)
| JArr (xs : list json)
| JObj (fs : list (string * json)).

(** A JavaScript value handed to [set] or returned by [get]; [JSUndef] is
    [undefined], [JSBigInt] a bigint (which [JSON.stringify] rejects). *)
Inductive jsval : Type :=
| JSUndef
| JSNull
| JSBool (b : bool)
| JSNum (z : Z)
| JSStr (s : string)
| JSArr (xs : list jsval)
| JSObj (fs : list (string * jsval))
| JSBigInt (z : Z).

(** Outcome of [JSON.stringify]: a TypeError, [undefined], or a document. *)
Inductive sres : Type :=
| SThrow
| SUndef
| SOk (j : json).

(** [JSON.stringify]: [undefined] inside an array becomes [null], inside an
    object the property is omitted; a bigint anywhere throws. *)
Fixpoint stringify (v : jsval) : sres :=
  match v with
  | JSUndef => SUndef
  | JSNull => SOk JNull
  | JSBool b => SOk (JBool b)
  | JSNum z => SOk (JNum z)
  | JSStr s => SOk (JStr s)
  | JSBigInt _ => SThrow
  | JSArr xs =>
      let fix go (xs : list jsval) : option (list json) :=
        match xs with
        | [] => Some []
        | x :: r =>
            match stringify x, go r with
            | SThrow, _ => None
            | _, None => None
            | SUndef, Some r' => Some (JNull :: r')
            | SOk j, Some r' => Some (j :: r')
            end
        end in
      match go xs with Some l => SOk (JArr l) | None => SThrow end
  | JSObj fs =>
      let fix go (fs : list (string * jsval)) : option (list (string * json)) :=
        match fs with
        | [] => Some []
        | (k, x) :: r =>
            match stringify x, go r with
            | SThrow, _ => None
            | _, None => None
            | SUndef, Some r' => Some r'
            | SOk j, Some r' => Some ((k, j) :: r')
            end
        end in
      match go fs with Some l => SOk (JObj l) | None => SThrow end
  end.

(** [JSON.parse] of the text of a document. *)
Fixpoint of_json (j : json) : jsval :=
  match j with
  | JNull => JSNull
  | JBool b => JSBool b
  | JNum z => JSNum z
  | JStr s => JSStr s
  | JArr xs => JSArr (map of_json xs)
  | JObj fs => JSObj (map (fun kv => (fst kv, of_json (snd kv))) fs)
  end.

(** JavaScript truthiness ([!x] is [negb (truthy x)]). *)
Definition truthy (v : jsval) : bool :=
  match v with
  | JSUndef | JSNull => false
  | JSBool b => b
  | JSNum z | JSBigInt z => negb (z =? 0)
  | JSStr s => negb (String.eqb s "")
  | JSArr _ | JSObj _ => true
  end.

(** Property read [o.name]: the last binding wins, as [JSON.parse] keeps the
    last of duplicated keys; anything but an object has neither [v] nor [e]. *)
Definition prop (o : jsval) (name : string) : jsval :=
  match o with
  | JSObj fs =>
      fold_left (fun acc kv => if String.eqb (fst kv) name then snd kv else acc)
        fs JSUndef
  | _ => JSUndef
  end.

(** [ToNumber] of a decimal string ([None] is NaN); only plain, optionally
    negative, digit strings are read, other numeric spellings are NaN here. *)
Fixpoint digits_value (s : string) (acc : Z) : option Z :=
  match s with
  | EmptyString => Some acc
  | String c r =>
      let n := Z.of_nat (nat_of_ascii c) in
      if (48 <=? n) && (n <=? 57) then digits_value r (10 * acc + (n - 48))
      else None
  end.

Definition str_number (s : string) : option Z :=
  match s with
  | EmptyString => Some 0
  | String "-"%char (String _ _ as r) => option_map Z.opp (digits_value r 0)
  | _ => digits_value s 0
  end.

(** [ToNumber] as used by the comparison [now() > parsed.e] ([None] is NaN).
    An array converts through its string form: [[]] is 0, [[x]] is [x]'s
    string form, where [null] and [undefined] print as the empty string. *)
Fixpoint to_number (in_array : bool) (v : jsval) : option Z :=
  match v with
  | JSUndef => if in_array then Some 0 else None
  | JSNull => Some 0
  | JSBool b => if in_array then None else Some (if b then 1 else 0)
  | JSNum z | JSBigInt z => Some z
  | JSStr s => str_number s
  | JSArr [] => Some 0
  | JSArr [x] => to_number true x
  | JSArr _ => None
  | JSObj _ => None
  end.

(** [now > x] for a number [now]: false when [x] converts to NaN. *)
Definition gt_num (now : Z) (x : jsval) : bool :=
  match to_number false x with
  | Some n => n <? now
  | None => false
  end.

(** ** Length of a JSON text, for the host storage quota *)

Fixpoint ndigits (fuel : nat) (n : Z) : nat :=
  match fuel with
  | O => 1
  | S f => if n <? 10 then 1 else S (ndigits f (n / 10))
  end.

Definition num_len (z : Z) : nat :=
  ndigits (Z.to_nat (Z.log2 (Z.abs z) + 1)) (Z.abs z) + (if z <? 0 then 1 else 0).

(** Characters of a string literal body: quote and backslash are escaped
    with a backslash, control characters as [\n]-style or [\u00XX]. *)
Fixpoint str_body_len (s : string) : nat :=
  match s with
  | EmptyString => 0
  | String c r =>
      let n := nat_of_ascii c in
      (if (n =? 34)%nat || (n =? 92)%nat then 2
       else if (n <? 32)%nat then
         (if (n =? 8)%nat || (n =? 9)%nat || (n =? 10)%nat || (n =? 12)%nat
             || (n =? 13)%nat then 2 else 6)
       else 1) + str_body_len r
  end%nat.

Fixpoint json_len (j : json) : nat :=
  match j with
  | JNull => 4
  | JBool b => if b then 4 else 5
  | JNum z => num_len z
  | JStr s => 2 + str_body_len s
  | JArr xs =>
      let fix go (xs : list json) : nat :=
        match xs with
        | [] => 0
        | [x] => json_len x
        | x :: r => json_len x + 1 + go r
        end in
      2 + go xs
  | JObj fs =>
      let fix go (fs : list (string * json)) : nat :=
        match fs with
        | [] => 0
        | [(k, x)] => 2 + str_body_len k + 1 + json_len x
        | (k, x) :: r => 2 + str_body_len k + 1 + json_len x + 1 + go r
        end in
      2 + go fs
  end%nat.

(** ** The backend (the [Storage] surface)

    A stored string is either the text of a JSON document ([RDoc j], which
    [JSON.parse] reads back as [of_json j]) or a text [JSON.parse] rejects
    ([RText s], e.g. the empty string or a truncated document). *)
Inductive raw : Type :=
| RDoc (j : json)
| RText (s : string).

Definition raw_len (r : raw) : nat :=
  match r with RDoc j => json_len j | RText s => String.length s end.

(** A change event ([Change] in types.ts). *)
Inductive change : Type :=
| CSet (key : string)
| CRemove (key : string)
| CClear.

(** A listener function registered with the emitter. A [Recorder] is a
    caller's function, identified by its id, which records what it receives;
    [Filtered cid p fn] is the closure [withPrefix(_, p).subscribe(fn)]
    creates (each call allocates a new closure, [cid]). *)
Inductive listener : Type :=
| Recorder (id : nat)
| Filtered (cid : nat) (prefix : string) (inner : listener).

Fixpoint listener_eqb (a b : listener) : bool :=
  match a, b with
  | Recorder i, Recorder j => Nat.eqb i j
  | Filtered c p l, Filtered c' p' l' =>
      Nat.eqb c c' && String.eqb p p' && listener_eqb l l'
  | _, _ => false
  end.

(** The world the program runs in. [items] is the backend's entries in
    enumeration order; [quota] bounds the total length of keys and values of
    a host storage ([None] for the in-memory fallback, which never refuses a
    write); [denied] is a host storage that refuses every mutation with a
    SecurityError; [clock] is [Date.now()]; [subs] is the emitter's listener
    set in insertion order; [pub] lists every published event and [log] every
    delivery [(recorder id, event)]. *)
Record world : Type := mkWorld {
  items : list (string * raw);
  quota : option nat;
  denied : bool;
  clock : Z;
  subs : list listener;
  pub : list change;
  log : list (nat * change);
  next_cid : nat
}.

Definition with_items (w : world) (l : list (string * raw)) : world :=
  mkWorld l (quota w) (denied w) (clock w) (subs w) (pub w) (log w) (next_cid w).
Definition with_subs (w : world) (l : list listener) : world :=
  mkWorld (items w) (quota w) (denied w) (clock w) l (pub w) (log w) (next_cid w).
Definition with_clock (w : world) (t : Z) : world :=
  mkWorld (items w) (quota w) (denied w) t (subs w) (pub w) (log w) (next_cid w).

(** ** A state and exception monad *)

Inductive exn : Type :=
| QuotaExceededError
| SecurityError
| TypeError.

Inductive res (A : Type) : Type :=
| Ok (a : A)
| Err (e : exn).
Arguments Ok {A} a.
Arguments Err {A} e.

Definition M (A : Type) : Type := world -> world * res A.

Definition ret {A} (a : A) : M A := fun w => (w, Ok a).
Definition throw {A} (e : exn) : M A := fun w => (w, Err e).
Definition bind {A B} (m : M A) (f : A -> M B) : M B :=
  fun w => let (w1, r) := m w in
           match r with Ok a => f a w1 | Err e => (w1, Err e) end.

Notation "x <- m ;; k" := (bind m (fun x => k))
  (at level 61, m at next level, right associativity).
Notation "m ;;; k" := (bind m (fun _ => k))
  (at level 61, right associativity).

(** [try { m } catch { h }] *)
Definition try_catch {A} (m : M A) (h : exn -> M A) : M A :=
  fun w => let (w1, r) := m w in
           match r with Ok a => (w1, Ok a) | Err e => h e w1 end.

(** [try { m } finally { f }]: the outcome of [m] stands unless [f] throws. *)
Definition try_finally {A} (m : M A) (f : M unit) : M A :=
  fun w => let (w1, r) := m w in
           let (w2, r2) := f w1 in
           match r2 with Ok _ => (w2, r) | Err e => (w2, Err e) end.

Definition now : M Z := fun w => (w, Ok (clock w)).

(** Run a computation and keep its result / final world. *)
Definition result {A} (m : M A) (w : world) : res A := snd (m w).
Definition after {A} (m : M A) (w : world) : world := fst (m w).

(** ** Backend operations

    [Map.set] keeps an existing key at its position and appends a new one;
    [key(i)] indexes the current enumeration order. A host storage throws
    [QuotaExceededError] when a write would exceed its quota, and a denied one
    throws [SecurityError] on every mutation; in both cases nothing changes. *)

Fixpoint map_set (k : string) (r : raw) (l : list (string * raw)) : list (string * raw) :=
  match l with
  | [] => [(k, r)]
  | (k', r') :: t => if String.eqb k k' then (k, r) :: t else (k', r') :: map_set k r t
  end.

Definition map_delete (k : string) (l : list (string * raw)) : list (string * raw) :=
  filter (fun kv => negb (String.eqb (fst kv) k)) l.

Fixpoint map_get (k : string) (l : list (string * raw)) : option raw :=
  match l with
  | [] => None
  | (k', r) :: t => if String.eqb k k' then Some r else map_get k t
  end.

Definition storage_size (l : list (string * raw)) : nat :=
  fold_right (fun kv n => (String.length (fst kv) + raw_len (snd kv) + n)%nat) 0%nat l.

Definition fits (q : option nat) (l : list (string * raw)) : bool :=
  match q with None => true | Some n => (storage_size l <=? n)%nat end.

Definition getItem (k : string) : M (option raw) :=
  fun w => (w, Ok (map_get k (items w))).

Definition setItem (k : string) (r : raw) : M unit :=
  fun w =>
    if denied w then (w, Err SecurityError)
    else let l := map_set k r (items w) in
         if fits (quota w) l then (with_items w l, Ok tt)
         else (w, Err QuotaExceededError).

Definition removeItem (k : string) : M unit :=
  fun w =>
    if denied w then (w, Err SecurityError)
    else (with_items w (map_delete k (items w)), Ok tt).

Definition storage_clear : M unit :=
  fun w => if denied w then (w, Err SecurityError) else (with_items w [], Ok tt).

Definition storage_length : M nat := fun w => (w, Ok (length (items w))).

Definition storage_key (i : nat) : M (option string) :=
  fun w => (w, Ok (nth_error (map fst (items w)) i)).

(** The in-memory fallback of [memoryStorage()]: no quota, never denied. *)
Definition memory_backed (w : world) : bool :=
  match quota w with None => negb (denied w) | Some _ => false end.

(** ** The emitter ([createEmitter]) *)

(** [k.slice(n)] *)
Definition slice (n : nat) (k : string) : string :=
  substring n (String.length k - n) k.

(** What the listener [l] passes on to recorders when it receives [c]; a
    [Filtered] closure forwards [clear] as it is and a keyed event only when
    its key starts with the prefix and the delimiter, with both stripped. *)
Fixpoint deliver (l : listener) (c : change) : list (nat * change) :=
  match l with
  | Recorder id => [(id, c)]
  | Filtered _ p inner =>
      let pd := (p ++ ":")%string in
      let strip k := slice (String.length p + 1) k in
      match c with
      | CClear => deliver inner c
      | CSet k => if String.prefix pd k then deliver inner (CSet (strip k)) else []
      | CRemove k => if String.prefix pd k then deliver inner (CRemove (strip k)) else []
      end
  end.

(** [emit(c)]: [fns.forEach((fn) => fn(c))]. *)
Definition emit (c : change) : M unit :=
  fun w =>
    (mkWorld (items w) (quota w) (denied w) (clock w) (subs w)
       (pub w ++ [c]) (log w ++ flat_map (fun l => deliver l c) (subs w)) (next_cid w),
     Ok tt).

(** The unsubscribe handle [() => fns.delete(fn)]. *)
Definition off (fn : listener) : M unit :=
  fun w => (with_subs w (filter (fun l => negb (listener_eqb l fn)) (subs w)), Ok tt).

(** [on(fn)]: [fns.add(fn)] (a no-op when [fn] is already there). *)
Definition on (fn : listener) : M (M unit) :=
  fun w =>
    (with_subs w (if existsb (listener_eqb fn) (subs w) then subs w else subs w ++ [fn]),
     Ok (off fn)).

(** ** The [Store] interface *)

Record Store : Type := mkStore {
  set : string -> jsval -> option Z -> M unit;
  get : string -> M jsval;
  remove : string -> M unit;
  clear : M unit;
  has : string -> M bool;
  keys : M (list string);
  subscribe : listener -> M (M unit)
}.

(** [safeParse(raw)]: [undefined] ([JSUndef]) for [null], the empty string
    and text [JSON.parse] rejects. *)
Definition safeParse (r : option raw) : jsval :=
  match r with
  | None => JSUndef
  | Some (RText _) => JSUndef
  | Some (RDoc j) => of_json j
  end.

(** The envelope [opts?.ttl ? { v: value, e: now() + opts.ttl } : { v: value }]. *)
Definition payload (value : jsval) (ttl : option Z) (t : Z) : jsval :=
  match ttl with
  | Some d => if d =? 0 then JSObj [("v"%string, value)]
              else JSObj [("v"%string, value); ("e"%string, JSNum (t + d))]
  | None => JSObj [("v"%string, value)]
  end.

(** [JSON.stringify(payload)] as a stored string; a top-level [undefined]
    would be stored as the text ["undefined"]. *)
Definition json_stringify (v : jsval) : M raw :=
  match stringify v with
  | SThrow => throw TypeError
  | SUndef => ret (RText "undefined")
  | SOk j => ret (RDoc j)
  end.

(** ** The store engine: [make(store)] *)

Definition make_set (key : string) (value : jsval) (ttl : option Z) : M unit :=
  try_catch
    (t <- now ;;
     s <- json_stringify (payload value ttl t) ;;
     setItem key s ;;;
     emit (CSet key))
    (fun _ => ret tt).

Definition make_get (key : string) : M jsval :=
  r <- getItem key ;;
  let parsed := safeParse r in
  if negb (truthy parsed) then ret JSUndef
  else
    t <- now ;;
    let e := prop parsed "e" in
    if truthy e && gt_num t e then
      try_catch (removeItem key) (fun _ => ret tt) ;;;
      emit (CRemove key) ;;;
      ret JSUndef
    else ret (prop parsed "v").

Definition make_remove (key : string) : M unit :=
  try_finally (removeItem key) (emit (CRemove key)).

Definition make_clear : M unit :=
  try_finally storage_clear (emit CClear).

Definition make_has (key : string) : M bool :=
  v <- make_get key ;;
  ret (match v with JSUndef => false | _ => true end).

(** The loop of [keys()]: [for (let i = 0; i < backing.length; i++)], the
    length being read again at every test. [has] only removes entries, so
    the length never grows and the loop runs at most as many times as the
    length it starts from: [fuel] is that bound plus one. *)
Fixpoint keys_loop (fuel i : nat) (ks : list string) : M (list string) :=
  match fuel with
  | O => ret ks
  | S f =>
      len <- storage_length ;;
      if (i <? len)%nat then
        k <- storage_key i ;;
        match k with
        | None => keys_loop f (S i) ks
        | Some k =>
            if String.eqb k "" then keys_loop f (S i) ks
            else h <- make_has k ;;
                 keys_loop f (S i) (if h then ks ++ [k] else ks)
        end
      else ret ks
  end.

Definition make_keys : M (list string) :=
  len <- storage_length ;;
  keys_loop (S len) 0 [].

Definition make_subscribe (fn : listener) : M (M unit) := on fn.

Definition make : Store :=
  mkStore make_set make_get make_remove make_clear make_has make_keys make_subscribe.

(** ** [withPrefix(store, prefix)] *)

Fixpoint for_each {A} (xs : list A) (f : A -> M unit) : M unit :=
  match xs with
  | [] => ret tt
  | x :: r => f x ;;; for_each r f
  end.

Definition alloc_cid : M nat :=
  fun w => (mkWorld (items w) (quota w) (denied w) (clock w) (subs w) (pub w) (log w)
              (S (next_cid w)), Ok (next_cid w)).

Definition withPrefix (store : Store) (prefix : string) : Store :=
  let pd := (prefix ++ ":")%string in
  let p k := (pd ++ k)%string in
  mkStore
    (fun k v o => set store (p k) v o)
    (fun k => get store (p k))
    (fun k => remove store (p k))
    (ks <- keys store ;;
     for_each ks (fun k => if String.prefix pd k then remove store k else ret tt))
    (fun k => has store (p k))
    (ks <- keys store ;;
     ret (map (slice (String.length prefix + 1)) (filter (String.prefix pd) ks)))
    (fun fn => cid <- alloc_cid ;; subscribe store (Filtered cid prefix fn)).

(** ** Sample worlds *)

Definition empty_memory (t : Z) : world := mkWorld [] None false t [] [] [] 0.

Definition envelope (v : json) (e : option Z) : raw :=
  match e with
  | None => RDoc (JObj [("v"%string, v)])
  | Some e => RDoc (JObj [("v"%string, v); ("e"%string, JNum e)])
  end.

(** ** Basic facts about the backend and the engine *)

Lemma map_get_set_same (k : string) (r : raw) (l : list (string * raw)) :
  map_get k (map_set k r l) = Some r.
Proof.
  induction l as [|[k' r'] t IH]; simpl.
  - now rewrite String.eqb_refl.
  - destruct (String.eqb k k') eqn:E; simpl.
    + now rewrite String.eqb_refl.
    + now rewrite E.
Qed.

Lemma map_get_delete_same (k : string) (l : list (string * raw)) :
  map_get k (map_delete k l) = None.
Proof.
  induction l as [|[k' r'] t IH]; simpl; auto.
  destruct (String.eqb k' k) eqn:E; simpl.
  - exact IH.
  - rewrite String.eqb_sym, E. exact IH.
Qed.

(** [get] never throws: a failed lazy removal is swallowed. *)
Lemma make_get_total (k : string) (w : world) :
  exists w' v, make_get k w = (w', Ok v).
Proof.
  unfold make_get, bind, getItem, ret, now.
  destruct (negb (truthy (safeParse (map_get k (items w))))); [eauto|].
  destruct (truthy _ && gt_num _ _); [|eauto].
  unfold try_catch, removeItem, emit.
  destruct (denied w); simpl; eauto.
Qed.

Lemma make_has_total (k : string) (w : world) :
  exists w' b, make_has k w = (w', Ok b).
Proof.
  unfold make_has, bind.
  destruct (make_get_total k w) as (w' & v & ->).
  unfold ret; eauto.
Qed.

Lemma keys_loop_no_empty (fuel i : nat) (ks : list string) (w : world) :
  ~ In ""%string ks ->
  exists w' ks', keys_loop fuel i ks w = (w', Ok ks') /\ ~ In ""%string ks'.
Proof.
  revert i ks w.
  induction fuel as [|f IH]; intros i ks w Hks; simpl.
  - unfold ret; eauto.
  - unfold bind at 1, storage_length.
    destruct (i <? length (items w))%nat; [|unfold ret; eauto].
    unfold bind at 1, storage_key.
    destruct (nth_error (map fst (items w)) i) as [k|]; [|now apply IH].
    destruct (String.eqb k "") eqn:Ek; [now apply IH|].
    unfold bind at 1.
    destruct (make_has_total k w) as (w1 & b & ->).
    apply IH.
    destruct b; [|exact Hks].
    intros Hin. apply in_app_or in Hin as [Hin|Hin]; [contradiction|].
    destruct Hin as [Hin|[]]. subst k. discriminate.
Qed.

(** ** C10: the empty key is never listed *)

(** C10: for every store state, [keys()] returns normally and the empty
    string is not among its results: the scan skips the falsy key [""] even
    when an entry is stored under it. *)
Theorem keys_never_lists_empty_key (w : world) :
  exists ks, result make_keys w = Ok ks /\ ~ In ""%string ks.
Proof.
  unfold result, make_keys, bind at 1, storage_length.
  destruct (keys_loop_no_empty (S (length (items w))) 0 [] w) as (w' & ks & E & H);
    [intros []|].
  rewrite E. simpl. eauto.
Qed.

(** ** JSON values and the envelope written by [set] *)

(** A JSON-compatible value: no [undefined] and no bigint anywhere. *)
Fixpoint json_value (v : jsval) : bool :=
  match v with
  | JSUndef | JSBigInt _ => false
  | JSNull | JSBool _ | JSNum _ | JSStr _ => true
  | JSArr xs => forallb json_value xs
  | JSObj fs => forallb (fun kv => json_value (snd kv)) fs
  end.

(** Whether the backend accepts writing [r] under [k]. *)
Definition write_ok (w : world) (k : string) (r : raw) : bool :=
  negb (denied w) && fits (quota w) (map_set k r (items w)).

(** Whether the write performed by [set(k, v, {ttl})] in [w] succeeds:
    the envelope serialises and the backend accepts it. *)
Definition set_accepted (w : world) (k : string) (v : jsval) (ttl : option Z) : bool :=
  match stringify (payload v ttl (clock w)) with
  | SThrow => false
  | SUndef => write_ok w k (RText "undefined")
  | SOk j => write_ok w k (RDoc j)
  end.

Definition jsval_nested_ind (P : jsval -> Prop)
  (HU : P JSUndef) (HN : P JSNull) (HB : forall b, P (JSBool b))
  (HZ : forall z, P (JSNum z)) (HS : forall s, P (JSStr s))
  (HA : forall xs, Forall P xs -> P (JSArr xs))
  (HO : forall fs, Forall (fun kv => P (snd kv)) fs -> P (JSObj fs))
  (HI : forall z, P (JSBigInt z)) : forall v, P v :=
  fix go (v : jsval) : P v :=
    match v with
    | JSUndef => HU
    | JSNull => HN
    | JSBool b => HB b
    | JSNum z => HZ z
    | JSStr s => HS s
    | JSArr xs =>
        HA xs ((fix gol (xs : list jsval) : Forall P xs :=
                  match xs with
                  | [] => Forall_nil P
                  | x :: r => Forall_cons x (go x) (gol r)
                  end) xs)
    | JSObj fs =>
        HO fs ((fix gof (fs : list (string * jsval)) : Forall (fun kv => P (snd kv)) fs :=
                  match fs with
                  | [] => Forall_nil _
                  | kv :: r => Forall_cons kv (go (snd kv)) (gof r)
                  end) fs)
    | JSBigInt z => HI z
    end.

(** [JSON.parse(JSON.stringify(v))] gives [v] back for a JSON value. *)
Lemma stringify_json_value (v : jsval) :
  json_value v = true -> exists j, stringify v = SOk j /\ of_json j = v.
Proof.
  induction v as [| | b | z | s | xs IH | fs IH | z] using jsval_nested_ind;
    simpl; intros H; try discriminate; eauto.
  - induction IH as [|x xs Hx Hxs IHxs]; [exists (JArr []); auto|].
    simpl in H. apply andb_prop in H as [H1 H2].
    destruct (Hx H1) as (j & Ej & Oj).
    destruct (IHxs H2) as (j' & Ej' & Oj').
    simpl in Ej |- *. rewrite Ej.
    destruct (_ xs) as [l|] eqn:G in Ej' |- *; [|discriminate].
    injection Ej' as <-. simpl in Oj'. injection Oj' as Oj'.
    exists (JArr (j :: l)). simpl. now rewrite Oj, Oj'.
  - induction IH as [|[k x] fs Hx Hfs IHfs]; [exists (JObj []); auto|].
    simpl in H, Hx. apply andb_prop in H as [H1 H2].
    destruct (Hx H1) as (j & Ej & Oj).
    destruct (IHfs H2) as (j' & Ej' & Oj').
    simpl in Ej |- *. rewrite Ej.
    destruct (_ fs) as [l|] eqn:G in Ej' |- *; [|discriminate].
    injection Ej' as <-. simpl in Oj'. injection Oj' as Oj'.
    exists (JObj ((k, j) :: l)). simpl. now rewrite Oj, Oj'.
Qed.

(** The stored text [set] writes, when the envelope serialises. *)
Definition set_raw (w : world) (v : jsval) (ttl : option Z) : raw :=
  match stringify (payload v ttl (clock w)) with
  | SOk j => RDoc j
  | _ => RText "undefined"
  end.

(** [set] either writes the envelope and publishes [Set{key}], or (when the
    write throws) leaves the world as it was; it never throws. *)
Lemma make_set_spec (w : world) (k : string) (v : jsval) (ttl : option Z) :
  make_set k v ttl w =
  (if set_accepted w k v ttl
   then after (emit (CSet k)) (with_items w (map_set k (set_raw w v ttl) (items w)))
   else w, Ok tt).
Proof.
  unfold make_set, set_accepted, set_raw, try_catch, bind, now, json_stringify.
  destruct (stringify (payload v ttl (clock w))) as [| |j]; [reflexivity| |];
    unfold ret, setItem, write_ok; destruct (denied w); simpl; try reflexivity;
    destruct (fits _ _); reflexivity.
Qed.

(** ** C4: a failed write is silent *)

(** C4: [set(key, value)] always returns normally; when the backend write
    fails (the value does not serialise, the quota is exceeded or the storage
    refuses the mutation) the world is left exactly as it was, so no event is
    published; when it succeeds exactly one [Set{key}] event is published. *)
Theorem set_write_failure_silent (w : world) (k : string) (v : jsval) (ttl : option Z) :
  result (make_set k v ttl) w = Ok tt /\
  (set_accepted w k v ttl = false -> after (make_set k v ttl) w = w) /\
  (set_accepted w k v ttl = true -> pub (after (make_set k v ttl) w) = pub w ++ [CSet k]).
Proof.
  unfold result, after. rewrite make_set_spec.
  destruct (set_accepted w k v ttl); simpl; repeat split; intros H;
    try discriminate; reflexivity.
Qed.

Lemma set_write_failure_silent_witness :
  set_accepted (empty_memory 0) "k" (JSBigInt 1) None = false /\
  after (make_set "k" (JSBigInt 1) None) (empty_memory 0) = empty_memory 0 /\
  set_accepted (empty_memory 0) "k" (JSNum 1) None = true /\
  pub (after (make_set "k" (JSNum 1) None) (empty_memory 0)) = [CSet "k"].
Proof.
  split; [reflexivity|].
  split; [apply (set_write_failure_silent (empty_memory 0) "k" (JSBigInt 1) None); reflexivity|].
  split; [reflexivity|].
  apply (set_write_failure_silent (empty_memory 0) "k" (JSNum 1) None); reflexivity.
Defined.

(** ** Reading an envelope back *)

Lemma make_get_absent (w : world) (k : string) :
  map_get k (items w) = None -> make_get k w = (w, Ok JSUndef).
Proof.
  intros H. unfold make_get, bind, getItem, ret. now rewrite H.
Qed.

(** [get] on an envelope with a non-zero numeric expiry [e]: expired (and
    lazily removed, with a [Remove{key}] event) exactly when [now > e]. *)
Lemma make_get_dated (w : world) (k : string) (j : json) (e : Z) :
  map_get k (items w) = Some (RDoc (JObj [("v"%string, j); ("e"%string, JNum e)])) ->
  e <> 0 ->
  make_get k w =
  if e <? clock w
  then (after (emit (CRemove k))
          (if denied w then w else with_items w (map_delete k (items w))), Ok JSUndef)
  else (w, Ok (of_json j)).
Proof.
  intros H He. unfold make_get, bind, getItem, ret, now. rewrite H. simpl.
  apply Z.eqb_neq in He. rewrite He. unfold gt_num. simpl.
  destruct (e <? clock w); [|reflexivity].
  unfold try_catch, removeItem, emit, after. destruct (denied w); reflexivity.
Qed.

(** [get] on an envelope without expiry returns its value at any time. *)
Lemma make_get_undated (w : world) (k : string) (j : json) :
  map_get k (items w) = Some (RDoc (JObj [("v"%string, j)])) ->
  make_get k w = (w, Ok (of_json j)).
Proof.
  intros H. unfold make_get, bind, getItem, ret, now. rewrite H. reflexivity.
Qed.

Lemma items_emit (c : change) (w : world) : items (after (emit c) w) = items w.
Proof. reflexivity. Qed.

Lemma denied_emit (c : change) (w : world) : denied (after (emit c) w) = denied w.
Proof. reflexivity. Qed.

Lemma clock_emit (c : change) (w : world) : clock (after (emit c) w) = clock w.
Proof. reflexivity. Qed.

(** The envelope [set] writes for a JSON value. *)
Lemma stringify_payload (v : jsval) (jv : json) (ttl : option Z) (t : Z) :
  stringify v = SOk jv ->
  stringify (payload v ttl t) =
  SOk (match ttl with
       | Some d => if d =? 0 then JObj [("v"%string, jv)]
                   else JObj [("v"%string, jv); ("e"%string, JNum (t + d))]
       | None => JObj [("v"%string, jv)]
       end).
Proof.
  intros Ej. unfold payload.
  destruct ttl as [d|]; [destruct (d =? 0)|]; simpl; rewrite Ej; reflexivity.
Qed.

(** ** C1: TTL round trip, strict expiry *)

(** C1: for a JSON value [v] and a TTL [t > 0], once [set(k, v, {ttl: t})]
    has written its envelope, [get(k)] returns [v] immediately and at every
    instant up to and including [set]'s time plus [t] (an expiry equal to the
    current time is not yet passed); strictly later, [get(k)] returns
    [undefined] and a following [has(k)] is false. *)
Theorem ttl_set_get_expiry (w : world) (k : string) (v : jsval) (t : Z)
  (Ht : 0 < t) (Hclock : 0 <= clock w) (Hv : json_value v = true)
  (Hacc : set_accepted w k v (Some t) = true) :
  let w1 := after (make_set k v (Some t)) w in
  result (make_get k) w1 = Ok v /\
  (forall d, 0 <= d <= t ->
     result (make_get k) (with_clock w1 (clock w + d)) = Ok v) /\
  (forall d, t < d ->
     result (make_get k) (with_clock w1 (clock w + d)) = Ok JSUndef /\
     result (make_has k) (after (make_get k) (with_clock w1 (clock w + d))) = Ok false).
Proof.
  cbv zeta.
  destruct (stringify_json_value v Hv) as (jv & Ej & Oj).
  pose proof (stringify_payload v jv (Some t) (clock w) Ej) as Hp.
  assert (Ht0 : (t =? 0) = false) by (apply Z.eqb_neq; lia).
  cbn iota beta in Hp. rewrite Ht0 in Hp.
  assert (Hden : denied w = false).
  { unfold set_accepted in Hacc. rewrite Hp in Hacc. unfold write_ok in Hacc.
    destruct (denied w); [discriminate|reflexivity]. }
  set (env := JObj [("v"%string, jv); ("e"%string, JNum (clock w + t))]).
  assert (Hraw : set_raw w v (Some t) = RDoc env) by (unfold set_raw; now rewrite Hp).
  assert (Hw1 : after (make_set k v (Some t)) w =
                after (emit (CSet k)) (with_items w (map_set k (RDoc env) (items w))))
    by (unfold after at 1; now rewrite make_set_spec, Hacc, Hraw).
  rewrite Hw1.
  set (w1 := after (emit (CSet k)) (with_items w (map_set k (RDoc env) (items w)))).
  assert (Hit : map_get k (items w1) = Some (RDoc env)) by apply map_get_set_same.
  assert (He : clock w + t <> 0) by lia.
  split; [|split].
  - unfold result. rewrite (make_get_dated w1 k jv (clock w + t) Hit He).
    replace (clock w + t <? clock w1) with false
      by (symmetry; apply Z.ltb_ge; unfold w1; rewrite clock_emit; simpl; lia).
    simpl. now rewrite Oj.
  - intros d Hd. unfold result.
    rewrite (make_get_dated (with_clock w1 (clock w + d)) k jv (clock w + t) Hit He).
    replace (clock w + t <? clock (with_clock w1 (clock w + d))) with false
      by (symmetry; apply Z.ltb_ge; simpl; lia).
    simpl. now rewrite Oj.
  - intros d Hd. unfold result. unfold after at 1.
    rewrite (make_get_dated (with_clock w1 (clock w + d)) k jv (clock w + t) Hit He).
    replace (clock w + t <? clock (with_clock w1 (clock w + d))) with true
      by (symmetry; apply Z.ltb_lt; simpl; lia).
    split; [reflexivity|].
    simpl fst.
    replace (denied (with_clock w1 (clock w + d))) with false
      by (unfold w1; simpl; now rewrite Hden).
    unfold make_has, bind.
    rewrite make_get_absent; [reflexivity|].
    rewrite items_emit. simpl. rewrite Hden. apply map_get_delete_same.
Qed.

Lemma ttl_set_get_expiry_witness :
  (0 < 10 /\ 0 <= clock (empty_memory 100) /\ json_value (JSStr "abc") = true /\
   set_accepted (empty_memory 100) "token" (JSStr "abc") (Some 10) = true) /\
  result (make_get "token")
    (with_clock (after (make_set "token" (JSStr "abc") (Some 10)) (empty_memory 100)) 115)
  = Ok JSUndef.
Proof.
  split; [repeat split; first [reflexivity | simpl; lia]|].
  refine (proj1 (proj2 (proj2 (ttl_set_get_expiry (empty_memory 100) "token" (JSStr "abc") 10
           _ _ _ _)) 15 _)); first [reflexivity | simpl; lia].
Defined.

(** ** C3: when [set] writes an expiry *)

(** The expiry [set] writes: present exactly for a truthy (non-zero) TTL. *)
Definition written_expiry (ttl : option Z) (t : Z) : option Z :=
  match ttl with
  | Some d => if d =? 0 then None else Some (t + d)
  | None => None
  end.

(** C3 (as the code does it): the envelope [set] stores carries the expiry
    [now() + ttl] exactly when the TTL is present and non-zero, negative TTLs
    included; with no TTL or a zero TTL there is no expiry and [get] returns
    the value at every later time. *)
Theorem set_expiry_iff_truthy_ttl (w : world) (k : string) (v : jsval) (ttl : option Z)
  (Hv : json_value v = true) (Hacc : set_accepted w k v ttl = true) :
  (exists jv, of_json jv = v /\
     map_get k (items (after (make_set k v ttl) w)) =
     Some (envelope jv (written_expiry ttl (clock w)))) /\
  (written_expiry ttl (clock w) = None ->
   forall c, result (make_get k) (with_clock (after (make_set k v ttl) w) c) = Ok v).
Proof.
  destruct (stringify_json_value v Hv) as (jv & Ej & Oj).
  pose proof (stringify_payload v jv ttl (clock w) Ej) as Hp.
  assert (Hraw : set_raw w v ttl =
                 envelope jv (written_expiry ttl (clock w))).
  { unfold set_raw. rewrite Hp. unfold written_expiry, envelope.
    destruct ttl as [d|]; [destruct (d =? 0)|]; reflexivity. }
  assert (Hit : map_get k (items (after (make_set k v ttl) w)) =
                Some (envelope jv (written_expiry ttl (clock w)))).
  { unfold after at 1. rewrite make_set_spec, Hacc, Hraw.
    cbn [fst]. rewrite items_emit. apply map_get_set_same. }
  split; [eauto|].
  intros Hnone c. rewrite Hnone in Hit. unfold result.
  rewrite (make_get_undated (with_clock (after (make_set k v ttl) w) c) k jv Hit). simpl. now rewrite Oj.
Qed.

Lemma set_expiry_iff_truthy_ttl_witness :
  json_value (JSNum 1) = true /\ set_accepted (empty_memory 100) "k" (JSNum 1) (Some 0) = true /\
  result (make_get "k")
    (with_clock (after (make_set "k" (JSNum 1) (Some 0)) (empty_memory 100)) 999999) = Ok (JSNum 1).
Proof.
  split; [reflexivity|]. split; [reflexivity|].
  apply (proj2 (set_expiry_iff_truthy_ttl (empty_memory 100) "k" (JSNum 1) (Some 0)
                  eq_refl eq_refl) eq_refl).
Defined.

(** C3 fails as stated: a negative TTL is truthy, so [set] writes the expiry
    [now() + ttl], already passed, and the key reads as expired at once. *)
Lemma set_negative_ttl_writes_expiry :
  map_get "k" (items (after (make_set "k" (JSNum 1) (Some (-5))) (empty_memory 100)))
    = Some (envelope (JNum 1) (Some 95)) /\
  result (make_get "k") (after (make_set "k" (JSNum 1) (Some (-5))) (empty_memory 100))
    = Ok JSUndef.
Proof. split; reflexivity. Qed.

(** ** C5: [remove] *)

(** C5 (as the code does it): [remove(k)] publishes exactly one
    [Remove{k}], whether or not [k] existed and whether or not the backend
    removal fails; when the backend accepts the removal, [remove] returns
    normally and [get(k)] is [undefined] afterwards. *)
Theorem remove_publishes_once (w : world) (k : string) :
  pub (after (make_remove k) w) = pub w ++ [CRemove k] /\
  (denied w = false ->
   result (make_remove k) w = Ok tt /\
   result (make_get k) (after (make_remove k) w) = Ok JSUndef).
Proof.
  unfold make_remove, try_finally, removeItem, result, after.
  destruct (denied w) eqn:D; simpl.
  - split; [reflexivity|discriminate].
  - split; [reflexivity|]. intros _. split; [reflexivity|].
    rewrite make_get_absent; [reflexivity|]. apply map_get_delete_same.
Qed.

Lemma remove_publishes_once_witness :
  let w := mkWorld [("k"%string, envelope (JNum 1) None)] None false 0 [] [] [] 0 in
  denied w = false /\ result (make_get "k") (after (make_remove "k") w) = Ok JSUndef.
Proof.
  cbv zeta. split; [reflexivity|].
  apply (proj2 (remove_publishes_once
                  (mkWorld [("k"%string, envelope (JNum 1) None)] None false 0 [] [] [] 0) "k")
                  eq_refl).
Defined.

(** C5 fails as stated: on a storage that refuses the removal, [remove]
    publishes [Remove{k}] but the entry stays, and [get(k)] still returns
    its value (the SecurityError also reaches the caller). *)
Lemma remove_refused_keeps_value :
  let w := mkWorld [("k"%string, envelope (JNum 1) None)] None true 0 [] [] [] 0 in
  result (make_remove "k") w = Err SecurityError /\
  pub (after (make_remove "k") w) = [CRemove "k"] /\
  result (make_get "k") (after (make_remove "k") w) = Ok (JSNum 1).
Proof. cbv zeta. repeat split; reflexivity. Qed.

(** ** C6: [get] on an expired or unreadable entry *)

(** [get] on a missing or unparseable entry returns [undefined] and leaves
    the world (so the published events) unchanged. *)
Lemma get_unreadable_silent (w : world) (k : string) :
  (map_get k (items w) = None \/ exists s, map_get k (items w) = Some (RText s)) ->
  make_get k w = (w, Ok JSUndef).
Proof.
  intros [H | [s H]]; [now apply make_get_absent|].
  unfold make_get, bind, getItem, ret. now rewrite H.
Qed.

(** C6 fails at the epoch expiry [e = 0], which [parsed.e &&] reads as
    absent: the envelope [{"v":1,"e":0}] has expired at time 5, yet [get]
    returns 1 and publishes nothing. *)
Lemma get_epoch_expiry_not_expired :
  let w := mkWorld [("k"%string, envelope (JNum 1) (Some 0))] None false 5 [] [] [] 0 in
  make_get "k" w = (w, Ok (JSNum 1)).
Proof. reflexivity. Qed.

(** ** C2, C7, C8: the [keys()] scan skips the entry after a purged one

    [has(k)] removes an expired [k] from the backend while [keys()] scans it
    by index, so the entry that moves into the freed position is never
    looked at. *)

(** C2 fails: with an expired ["b"] before the live ["c"], [keys()] returns
    no key, although [has("c")] is true before and after the scan. *)
Lemma keys_skips_entry_after_expired :
  let w := mkWorld [("b"%string, envelope (JNum 1) (Some 3));
                    ("c"%string, envelope (JNum 2) None)] None false 10 [] [] [] 0 in
  result (make_has "c") w = Ok true /\
  result make_keys w = Ok [] /\
  result (make_has "c") (after make_keys w) = Ok true.
Proof. cbv zeta. repeat split; reflexivity. Qed.

(** C7 fails: after [withPrefix(store, "p").set("k", 1)] on a store whose
    only entry ["z"] has expired, [store.get("p:k")] is 1 but the
    namespaced [keys()] does not contain ["k"]. *)
Lemma prefixed_keys_misses_written_key :
  let w := mkWorld [("z"%string, envelope (JNum 0) (Some 1))] None false 5 [] [] [] 0 in
  let w1 := after (set (withPrefix make "p") "k" (JSNum 1) None) w in
  result (get make "p:k") w1 = Ok (JSNum 1) /\
  result (keys (withPrefix make "p")) w1 = Ok [].
Proof. cbv zeta. split; reflexivity. Qed.

(** C8 fails: with ["a:w"] expired before the live ["a:x"] and ["b:y"],
    the namespaced [clear()] on ["a"] leaves ["a:x"] readable. *)
Lemma prefixed_clear_misses_key :
  let w := mkWorld [("a:w"%string, envelope (JNum 0) (Some 1));
                    ("a:x"%string, envelope (JNum 1) None);
                    ("b:y"%string, envelope (JNum 2) None)] None false 5 [] [] [] 0 in
  let w1 := after (clear (withPrefix make "a")) w in
  result (get make "a:x") w1 = Ok (JSNum 1) /\
  result (get make "b:y") w1 = Ok (JSNum 2) /\
  result (clear (withPrefix make "a")) w = Ok tt.
Proof. cbv zeta. repeat split; reflexivity. Qed.

(** ** C9: a subscriber's view of the event stream *)

(** Whether listener [l] forwards anything to the recorder [L]. *)
Fixpoint mentions (L : nat) (l : listener) : bool :=
  match l with
  | Recorder id => Nat.eqb id L
  | Filtered _ _ inner => mentions L inner
  end.

(** No registered listener forwards to [L]. *)
Definition fresh_for (L : nat) (w : world) : bool :=
  forallb (fun l => negb (mentions L l)) (subs w).

(** The events the recorder [L] has received, in order. *)
Definition received (L : nat) (lg : list (nat * change)) : list change :=
  map snd (filter (fun e => Nat.eqb (fst e) L) lg).

(** The scenario of the test "subscribe receives local events". *)
Definition scenario (L : nat) : M (M unit) :=
  h <- make_subscribe (Recorder L) ;;
  make_set "x" (JSNum 1) None ;;;
  make_remove "x" ;;;
  make_clear ;;;
  h ;;;
  ret h.

(** Operations a program may perform on the store or on a namespaced view
    of it ([Some p] is [withPrefix(store, p)]), or the passing of time. *)
Inductive op : Type :=
| OSet (ns : option string) (k : string) (v : jsval) (ttl : option Z)
| OGet (ns : option string) (k : string)
| ORemove (ns : option string) (k : string)
| OClear (ns : option string)
| OHas (ns : option string) (k : string)
| OKeys (ns : option string)
| OSubscribe (ns : option string) (fn : listener)
| OUnsubscribe (fn : listener)
| OTick (d : Z).

Definition view (ns : option string) : Store :=
  match ns with None => make | Some p => withPrefix make p end.

Definition tick (d : Z) : M unit := fun w => (with_clock w (clock w + d), Ok tt).

Definition run_op (o : op) : M unit :=
  match o with
  | OSet ns k v ttl => set (view ns) k v ttl
  | OGet ns k => _ <- get (view ns) k ;; ret tt
  | ORemove ns k => remove (view ns) k
  | OClear ns => clear (view ns)
  | OHas ns k => _ <- has (view ns) k ;; ret tt
  | OKeys ns => _ <- keys (view ns) ;; ret tt
  | OSubscribe ns fn => _ <- subscribe (view ns) fn ;; ret tt
  | OUnsubscribe fn => off fn
  | OTick d => tick d
  end.

(** Run operations one after the other; an exception ends the operation
    that raised it, not the program. *)
Fixpoint run_ops (ops : list op) (w : world) : world :=
  match ops with
  | [] => w
  | o :: r => run_ops r (after (run_op o) w)
  end.

(** The operations do not subscribe [L] again. *)
Definition ops_avoid (L : nat) (ops : list op) : bool :=
  forallb (fun o => match o with
                    | OSubscribe _ fn => negb (mentions L fn)
                    | _ => true
                    end) ops.

Section Quiet.

Variable L : nat.

(** A computation that keeps [L] unsubscribed and delivers nothing to it. *)
Definition quiet {A} (m : M A) : Prop :=
  forall w, fresh_for L w = true ->
    fresh_for L (after m w) = true /\
    received L (log (after m w)) = received L (log w).

Lemma quiet_frame {A} (m : M A) :
  (forall w, subs (after m w) = subs w /\ log (after m w) = log w) -> quiet m.
Proof.
  intros H w Hf. destruct (H w) as [Hs Hl]. unfold fresh_for in *.
  now rewrite Hs, Hl.
Qed.

Lemma quiet_ret {A} (a : A) : quiet (ret a).
Proof. apply quiet_frame. now intros w. Qed.

Lemma quiet_bind {A B} (m : M A) (f : A -> M B) :
  quiet m -> (forall a, quiet (f a)) -> quiet (bind m f).
Proof.
  intros Hm Hf w Hw. specialize (Hm w Hw). unfold bind, after in *.
  destruct (m w) as [w1 [a|e]]; simpl in *.
  - destruct Hm as [Hm1 Hm2]. destruct (Hf a w1 Hm1) as [H1 H2].
    unfold after in H1, H2.
    split; [exact H1|]. now rewrite H2.
  - exact Hm.
Qed.

Lemma quiet_try_catch {A} (m : M A) (h : exn -> M A) :
  quiet m -> (forall e, quiet (h e)) -> quiet (try_catch m h).
Proof.
  intros Hm Hh w Hw. specialize (Hm w Hw). unfold try_catch, after in *.
  destruct (m w) as [w1 [a|e]]; simpl in *; [exact Hm|].
  destruct Hm as [Hm1 Hm2]. destruct (Hh e w1 Hm1) as [H1 H2].
  unfold after in H1, H2.
  split; [exact H1|]. now rewrite H2.
Qed.

Lemma quiet_try_finally {A} (m : M A) (f : M unit) :
  quiet m -> quiet f -> quiet (try_finally m f).
Proof.
  intros Hm Hf w Hw. specialize (Hm w Hw). unfold try_finally, after in *.
  destruct (m w) as [w1 r]; simpl in *.
  destruct Hm as [Hm1 Hm2]. specialize (Hf w1 Hm1). unfold after in Hf.
  destruct (f w1) as [w2 [[]|e]]; simpl in *; destruct Hf as [H1 H2];
    (split; [exact H1|]); now rewrite H2.
Qed.

Lemma received_app (l1 l2 : list (nat * change)) :
  received L (l1 ++ l2) = received L l1 ++ received L l2.
Proof. unfold received. now rewrite filter_app, map_app. Qed.

Lemma deliver_not_mentioned (l : listener) (c : change) :
  mentions L l = false -> received L (deliver l c) = [].
Proof.
  revert c. induction l as [id|cid p inner IH]; intros c Hm; simpl in *.
  - unfold received. simpl. now rewrite Hm.
  - destruct c as [k|k|]; [destruct (String.prefix _ k)| destruct (String.prefix _ k)|];
      try reflexivity; now apply IH.
Qed.

Lemma received_deliveries (ls : list listener) (c : change) :
  forallb (fun l => negb (mentions L l)) ls = true ->
  received L (flat_map (fun l => deliver l c) ls) = [].
Proof.
  induction ls as [|l ls IH]; simpl; intros H; [reflexivity|].
  apply andb_prop in H as [H1 H2]. apply negb_true_iff in H1.
  rewrite received_app, deliver_not_mentioned by exact H1. now apply IH.
Qed.

Lemma quiet_emit (c : change) : quiet (emit c).
Proof.
  intros w Hw. split; [exact Hw|]. simpl.
  rewrite received_app, received_deliveries by exact Hw. apply app_nil_r.
Qed.

Lemma quiet_off (fn : listener) : quiet (off fn).
Proof.
  intros w Hw. split; [|reflexivity]. unfold fresh_for in *. simpl.
  apply forallb_forall. intros l Hl. apply filter_In in Hl as [Hl _].
  exact (proj1 (forallb_forall _ _) Hw l Hl).
Qed.

Lemma quiet_on (fn : listener) : mentions L fn = false -> quiet (on fn).
Proof.
  intros Hfn w Hw. split; [|reflexivity]. unfold fresh_for in *. simpl.
  destruct (existsb _ _); [exact Hw|].
  rewrite forallb_app, Hw. simpl. now rewrite Hfn.
Qed.

End Quiet.

Section QuietStore.

Variable L : nat.

Lemma quiet_getItem (k : string) : quiet L (getItem k).
Proof. apply quiet_frame. now intros w. Qed.

Lemma quiet_setItem (k : string) (r : raw) : quiet L (setItem k r).
Proof.
  apply quiet_frame. intros w. unfold setItem, after.
  destruct (denied w); [auto|]. destruct (fits _ _); auto.
Qed.

Lemma quiet_removeItem (k : string) : quiet L (removeItem k).
Proof. apply quiet_frame. intros w. unfold removeItem, after. destruct (denied w); auto. Qed.

Lemma quiet_storage_clear : quiet L storage_clear.
Proof. apply quiet_frame. intros w. unfold storage_clear, after. destruct (denied w); auto. Qed.

Lemma quiet_storage_length : quiet L storage_length.
Proof. apply quiet_frame. now intros w. Qed.

Lemma quiet_storage_key (i : nat) : quiet L (storage_key i).
Proof. apply quiet_frame. now intros w. Qed.

Lemma quiet_now : quiet L now.
Proof. apply quiet_frame. now intros w. Qed.

Lemma quiet_throw {A} (e : exn) : quiet L (@throw A e).
Proof. apply quiet_frame. now intros w. Qed.

Lemma quiet_alloc_cid : quiet L alloc_cid.
Proof. apply quiet_frame. now intros w. Qed.

Lemma quiet_tick (d : Z) : quiet L (tick d).
Proof. apply quiet_frame. now intros w. Qed.

Lemma quiet_json_stringify (v : jsval) : quiet L (json_stringify v).
Proof.
  unfold json_stringify. destruct (stringify v); [apply quiet_throw| |]; apply quiet_ret.
Qed.

Create HintDb quietdb.
Hint Resolve quiet_ret quiet_emit quiet_off quiet_getItem quiet_setItem quiet_removeItem
  quiet_storage_clear quiet_storage_length quiet_storage_key quiet_now quiet_throw
  quiet_alloc_cid quiet_tick quiet_json_stringify : quietdb.

Ltac quiet_tac :=
  repeat match goal with
  | |- quiet _ (bind _ _) => apply quiet_bind; intros
  | |- quiet _ (try_catch _ _) => apply quiet_try_catch; intros
  | |- quiet _ (try_finally _ _) => apply quiet_try_finally
  | |- quiet _ (if ?b then _ else _) => destruct b
  | |- quiet _ (match ?x with _ => _ end) => destruct x
  | |- quiet _ (let _ := _ in _) => cbv zeta
  end; auto with quietdb.

Lemma quiet_make_set (k : string) (v : jsval) (ttl : option Z) : quiet L (make_set k v ttl).
Proof. unfold make_set. quiet_tac. Qed.

Lemma quiet_make_get (k : string) : quiet L (make_get k).
Proof. unfold make_get. quiet_tac. Qed.

Lemma quiet_make_has (k : string) : quiet L (make_has k).
Proof. unfold make_has. apply quiet_bind; [apply quiet_make_get|]. intros. apply quiet_ret. Qed.

Lemma quiet_make_remove (k : string) : quiet L (make_remove k).
Proof. unfold make_remove. quiet_tac. Qed.

Lemma quiet_make_clear : quiet L make_clear.
Proof. unfold make_clear. quiet_tac. Qed.

Hint Resolve quiet_make_set quiet_make_get quiet_make_has quiet_make_remove quiet_make_clear
  : quietdb.

Lemma quiet_keys_loop (fuel i : nat) (ks : list string) : quiet L (keys_loop fuel i ks).
Proof.
  revert i ks. induction fuel as [|f IH]; intros i ks; simpl; quiet_tac.
Qed.

Lemma quiet_make_keys : quiet L make_keys.
Proof. unfold make_keys. apply quiet_bind; auto with quietdb. intros. apply quiet_keys_loop. Qed.

Hint Resolve quiet_make_keys : quietdb.

Lemma quiet_for_each {A} (xs : list A) (f : A -> M unit) :
  (forall x, quiet L (f x)) -> quiet L (for_each xs f).
Proof.
  intros Hf. induction xs as [|x r IH]; simpl; [apply quiet_ret|].
  apply quiet_bind; auto.
Qed.

Lemma quiet_run_op (o : op) :
  match o with OSubscribe _ fn => mentions L fn = false | _ => True end ->
  quiet L (run_op o).
Proof.
  intros Ho. destruct o as [ns k v ttl|ns k|ns k|ns|ns k|ns|ns fn|fn|d];
    try destruct ns as [p|]; simpl; quiet_tac.
  - apply quiet_for_each. intros x. quiet_tac.
  - apply quiet_on. exact Ho.
  - apply quiet_on. exact Ho.
Qed.

Lemma run_ops_quiet (ops : list op) (w : world) :
  ops_avoid L ops = true -> fresh_for L w = true ->
  fresh_for L (run_ops ops w) = true /\
  received L (log (run_ops ops w)) = received L (log w).
Proof.
  revert w. induction ops as [|o r IH]; intros w Hops Hw; simpl; [auto|].
  simpl in Hops. apply andb_prop in Hops as [Ho Hr].
  assert (Hq : quiet L (run_op o)).
  { apply quiet_run_op. destruct o; auto. now apply negb_true_iff. }
  destruct (Hq w Hw) as [H1 H2].
  destruct (IH (after (run_op o) w) Hr H1) as [H3 H4].
  split; [exact H3|]. now rewrite H4.
Qed.

End QuietStore.

Lemma listener_eqb_recorder (L : nat) (l : listener) :
  mentions L l = false ->
  listener_eqb (Recorder L) l = false /\ listener_eqb l (Recorder L) = false.
Proof.
  destruct l as [id|cid p inner]; simpl; intros H; [|auto].
  rewrite Nat.eqb_sym. auto.
Qed.

Lemma fresh_not_subscribed (L : nat) (ss : list listener) :
  forallb (fun l => negb (mentions L l)) ss = true ->
  existsb (listener_eqb (Recorder L)) ss = false /\
  filter (fun l => negb (listener_eqb l (Recorder L))) ss = ss.
Proof.
  induction ss as [|l ss IH]; cbn [forallb existsb filter]; intros H; [auto|].
  apply andb_prop in H as [H1 H2]. apply negb_true_iff in H1.
  destruct (listener_eqb_recorder L l H1) as [E1 E2].
  rewrite E1, E2. cbn [negb orb]. destruct (IH H2) as [-> ->]. auto.
Qed.

(** The scenario, run on an in-memory store where no listener forwards to
    [L]: [x] is written, removed and the store cleared, each publishing its
    event to the listeners and to [L], which is then unsubscribed. *)
Lemma scenario_run (L : nat) (w : world) :
  memory_backed w = true -> fresh_for L w = true ->
  let D c := flat_map (fun l => deliver l c) (subs w ++ [Recorder L]) in
  scenario L w =
  (mkWorld [] (quota w) (denied w) (clock w) (subs w)
     (pub w ++ [CSet "x"; CRemove "x"; CClear])
     (log w ++ D (CSet "x") ++ D (CRemove "x") ++ D CClear) (next_cid w),
   Ok (off (Recorder L))).
Proof.
  intros Hmem Hf. cbv zeta.
  destruct w as [its q d t ss p lg cid].
  unfold memory_backed in Hmem. simpl in Hmem.
  destruct q; [discriminate|]. destruct d; [discriminate|].
  unfold fresh_for in Hf. simpl in Hf.
  destruct (fresh_not_subscribed L ss Hf) as [Hex Hfil].
  unfold scenario, make_subscribe, on, bind. cbn -[listener_eqb deliver]. rewrite Hex.
  rewrite filter_app, Hfil. cbn -[deliver]. rewrite Nat.eqb_refl. cbn -[deliver].
  rewrite app_nil_r, <- !app_assoc. reflexivity.
Qed.

Lemma filter_idem {A} (f : A -> bool) (l : list A) : filter f (filter f l) = filter f l.
Proof.
  induction l as [|x l IH]; simpl; [reflexivity|].
  destruct (f x) eqn:E; simpl; [rewrite E|]; now rewrite IH.
Qed.

Lemma received_recorder_tail (L : nat) (ss : list listener) (c : change) :
  forallb (fun l => negb (mentions L l)) ss = true ->
  received L (flat_map (fun l => deliver l c) (ss ++ [Recorder L])) = [c].
Proof.
  intros H. rewrite flat_map_app, received_app, received_deliveries by exact H.
  unfold received. simpl. now rewrite Nat.eqb_refl.
Qed.

(** C9: on an in-memory store, a listener [L] (a function registered by
    this subscription only) that subscribes, then sees [set("x", 1)],
    [remove("x")] and [clear()] performed, then unsubscribes, has received
    exactly [Set{x}], [Remove{x}], [Clear] in that order; whatever the
    program does afterwards (short of subscribing [L] again), [L] receives
    nothing more; and running the unsubscribe handle twice has the effect
    of running it once, without raising. *)
Theorem subscriber_event_sequence (w : world) (L : nat)
  (Hmem : memory_backed w = true) (Hfresh : fresh_for L w = true) :
  exists h,
    result (scenario L) w = Ok h /\
    received L (log (after (scenario L) w)) =
      received L (log w) ++ [CSet "x"; CRemove "x"; CClear] /\
    (forall ops, ops_avoid L ops = true ->
       received L (log (run_ops ops (after (scenario L) w))) =
       received L (log (after (scenario L) w))) /\
    (forall u, (h ;;; h) u = h u).
Proof.
  pose proof (scenario_run L w Hmem Hfresh) as E. cbv zeta in E.
  exists (off (Recorder L)).
  unfold result, after. rewrite E. cbn [fst snd log].
  split; [reflexivity|]. split; [|split].
  - rewrite !received_app, !received_recorder_tail by exact Hfresh. reflexivity.
  - intros ops Hops. apply run_ops_quiet; [exact Hops|].
    unfold fresh_for. exact Hfresh.
  - intros u. destruct u. unfold bind, off. cbn -[listener_eqb]. rewrite filter_idem.
    reflexivity.
Qed.

Lemma subscriber_event_sequence_witness :
  memory_backed (empty_memory 0) = true /\ fresh_for 7 (empty_memory 0) = true /\
  received 7 (log (after (scenario 7) (empty_memory 0))) = [CSet "x"; CRemove "x"; CClear].
Proof.
  split; [reflexivity|]. split; [reflexivity|].
  destruct (subscriber_event_sequence (empty_memory 0) 7 eq_refl eq_refl) as (h & _ & H & _).
  exact H.
Defined.

(** * Further properties of the code *)

(** ** Strings *)

Lemma str_app_assoc (a b c : string) : ((a ++ b) ++ c = a ++ (b ++ c))%string.
Proof. induction a as [|x a IH]; simpl; [reflexivity|]. now rewrite IH. Qed.

Lemma str_length_app (a b : string) :
  String.length (a ++ b) = (String.length a + String.length b)%nat.
Proof. induction a as [|x a IH]; simpl; [reflexivity|]. now rewrite IH. Qed.

Lemma slice_zero (k : string) : slice 0 k = k.
Proof.
  unfold slice. rewrite Nat.sub_0_r.
  induction k as [|x k IH]; simpl; [reflexivity|]. now rewrite IH.
Qed.

Lemma slice_cons (n : nat) (x : ascii) (k : string) : slice (S n) (String x k) = slice n k.
Proof. reflexivity. Qed.

Lemma slice_empty (n : nat) : slice n "" = ""%string.
Proof. unfold slice. destruct n; reflexivity. Qed.

Lemma slice_slice (a b : nat) (k : string) : slice b (slice a k) = slice (a + b) k.
Proof.
  revert k. induction a as [|a IH]; intros k; [now rewrite slice_zero|].
  destruct k as [|x k]; [now rewrite !slice_empty|].
  simpl (S a + b)%nat. rewrite !slice_cons. apply IH.
Qed.

Lemma slice_app (a c : string) : slice (String.length a) (a ++ c) = c.
Proof.
  induction a as [|x a IH]; simpl; [apply slice_zero|].
  rewrite slice_cons. exact IH.
Qed.

Lemma prefix_concat (P Q k : string) :
  String.prefix (P ++ Q) k = String.prefix P k && String.prefix Q (slice (String.length P) k).
Proof.
  revert k. induction P as [|x P IH]; intros k.
  - cbn [String.append String.length]. rewrite slice_zero. destruct k; reflexivity.
  - destruct k as [|y k]; [reflexivity|].
    simpl String.length. rewrite slice_cons. simpl.
    destruct (ascii_dec x y); [apply IH|reflexivity].
Qed.

Lemma prefix_self (a c : string) : String.prefix a (a ++ c) = true.
Proof.
  induction a as [|x a IH]; simpl; [now destruct c|].
  destruct (ascii_dec x x); [exact IH|contradiction].
Qed.

Lemma prefix_split (a k : string) : String.prefix a k = true -> k = (a ++ slice (String.length a) k)%string.
Proof.
  revert k. induction a as [|x a IH]; intros k H; [simpl; now rewrite slice_zero|].
  destruct k as [|y k]; [discriminate|]. simpl in H.
  destruct (ascii_dec x y) as [->|]; [|discriminate].
  simpl. rewrite slice_cons. now rewrite <- IH.
Qed.

Lemma length_delim (p : string) : String.length (p ++ ":") = (String.length p + 1)%nat.
Proof. now rewrite str_length_app. Qed.

(** ** Nested namespaces *)

Lemma filter_map_nested (p q : string) (ks : list string) :
  map (slice (String.length q + 1))
    (filter (String.prefix (q ++ ":"))
       (map (slice (String.length p + 1)) (filter (String.prefix (p ++ ":")) ks))) =
  map (slice (String.length (p ++ ":" ++ q) + 1))
    (filter (String.prefix ((p ++ ":" ++ q) ++ ":")) ks).
Proof.
  induction ks as [|k ks IH]; [reflexivity|].
  assert (Hpre : String.prefix ((p ++ ":" ++ q) ++ ":") k =
                 String.prefix (p ++ ":") k &&
                 String.prefix (q ++ ":") (slice (String.length p + 1) k)).
  { assert (E : ((p ++ ":" ++ q) ++ ":")%string = ((p ++ ":") ++ (q ++ ":"))%string)
      by (rewrite !str_app_assoc; reflexivity).
    rewrite E, prefix_concat. now rewrite length_delim. }
  assert (Hlen : String.length (p ++ ":" ++ q) = (String.length p + 1 + String.length q)%nat).
  { rewrite !str_length_app. simpl. lia. }
  cbn [map filter]. rewrite Hpre.
  destruct (String.prefix (p ++ ":") k); cbn [andb map filter]; [|exact IH].
  destruct (String.prefix (q ++ ":") (slice (String.length p + 1) k));
    cbn [andb map filter]; [|exact IH].
  rewrite IH, slice_slice, Hlen. f_equal. f_equal. lia.
Qed.

Lemma for_each_filter_map (ks : list string) (g : string -> bool) (f : string -> string)
  (h : string -> M unit) (w : world) :
  for_each (map f (filter g ks)) h w = for_each ks (fun k => if g k then h (f k) else ret tt) w.
Proof.
  revert w. induction ks as [|k ks IH]; intros w; [reflexivity|].
  simpl. destruct (g k); simpl.
  - unfold bind. destruct (h (f k) w) as [w1 [[]|e]]; [apply IH|reflexivity].
  - unfold bind at 1, ret. apply IH.
Qed.

Lemma for_each_ext {A} (l : list A) (f g : A -> M unit) (w : world) :
  (forall x w', f x w' = g x w') -> for_each l f w = for_each l g w.
Proof.
  intros H. revert w. induction l as [|x l IH]; intros w; [reflexivity|].
  simpl. unfold bind. rewrite H. destruct (g x w) as [w1 [[]|e]]; [apply IH|reflexivity].
Qed.

Lemma nested_prefix_split (p q k : string) :
  String.prefix ((p ++ ":" ++ q) ++ ":") k =
  String.prefix (p ++ ":") k && String.prefix (q ++ ":") (slice (String.length p + 1) k).
Proof.
  assert (E : ((p ++ ":" ++ q) ++ ":")%string = ((p ++ ":") ++ (q ++ ":"))%string)
    by (rewrite !str_app_assoc; reflexivity).
  rewrite E, prefix_concat. now rewrite length_delim.
Qed.

(** X1: namespacing composes: [withPrefix(withPrefix(s, p), q)] reads,
    writes, tests, removes, lists and clears exactly as
    [withPrefix(s, p + ":" + q)], for any underlying store [s]. *)
Theorem withPrefix_nested (s : Store) (p q : string) :
  let inner := withPrefix (withPrefix s p) q in
  let flat := withPrefix s (p ++ ":" ++ q) in
  (forall k v o w, set inner k v o w = set flat k v o w) /\
  (forall k w, get inner k w = get flat k w) /\
  (forall k w, has inner k w = has flat k w) /\
  (forall k w, remove inner k w = remove flat k w) /\
  (forall w, keys inner w = keys flat w) /\
  (forall w, clear inner w = clear flat w).
Proof.
  cbv zeta.
  assert (E : forall k, ((p ++ ":") ++ ((q ++ ":") ++ k))%string =
                        (((p ++ ":" ++ q) ++ ":") ++ k)%string)
    by (intros k; rewrite !str_app_assoc; reflexivity).
  repeat split; intros; cbn [set get has remove keys clear withPrefix]; try now rewrite E.
  - unfold bind, ret. destruct (keys s w) as [w1 [ks|e]]; [|reflexivity].
    now rewrite filter_map_nested.
  - unfold bind at 1 2 3. unfold ret at 1.
    destruct (keys s w) as [w1 [ks|e]]; [|reflexivity].
    rewrite for_each_filter_map. apply for_each_ext. intros k w'.
    rewrite nested_prefix_split.
    destruct (String.prefix (p ++ ":") k) eqn:Hp; [|reflexivity]. cbn [andb].
    destruct (String.prefix (q ++ ":") (slice (String.length p + 1) k)); [|reflexivity].
    apply prefix_split in Hp. rewrite length_delim in Hp. now rewrite <- Hp.
Qed.

(** ** [get] in normal form *)

(** Whether [get] reads the stored text [r] as expired at time [t]: the
    parsed document is truthy, its [e] is truthy and [t > e]. *)
Definition expired_at (t : Z) (r : raw) : bool :=
  let parsed := safeParse (Some r) in
  truthy parsed && (truthy (prop parsed "e") && gt_num t (prop parsed "e")).

(** The value [get] returns for a stored text that has not expired. *)
Definition read_value (r : raw) : jsval :=
  let parsed := safeParse (Some r) in
  if truthy parsed then prop parsed "v" else JSUndef.

Lemma make_get_eq (k : string) (w : world) :
  make_get k w =
  match map_get k (items w) with
  | None => (w, Ok JSUndef)
  | Some r =>
      if expired_at (clock w) r
      then (after (emit (CRemove k))
              (if denied w then w else with_items w (map_delete k (items w))), Ok JSUndef)
      else (w, Ok (read_value r))
  end.
Proof.
  unfold make_get, bind, getItem, ret, now, expired_at, read_value.
  destruct (map_get k (items w)) as [r|]; [|reflexivity].
  destruct (truthy (safeParse (Some r))); cbn [negb andb]; [|reflexivity].
  destruct (truthy _ && gt_num _ _); [|reflexivity].
  unfold try_catch, removeItem, emit, after. destruct (denied w); reflexivity.
Qed.

Lemma make_has_eq (k : string) (w : world) :
  make_has k w =
  (after (make_get k) w,
   Ok (match result (make_get k) w with Ok JSUndef => false | _ => true end)).
Proof.
  unfold make_has, bind, after, result.
  destruct (make_get_total k w) as (w' & v & ->). reflexivity.
Qed.

(** What [get(k)] returns depends only on the entry under [k] and the clock. *)
Lemma get_result_local (k : string) (w1 w2 : world) :
  map_get k (items w1) = map_get k (items w2) -> clock w1 = clock w2 ->
  result (make_get k) w1 = result (make_get k) w2.
Proof.
  intros Hk Hc. unfold result. rewrite !make_get_eq, Hk, Hc.
  destruct (map_get k (items w2)) as [r|]; [|reflexivity].
  destruct (expired_at (clock w2) r); reflexivity.
Qed.

Lemma has_result_local (k : string) (w1 w2 : world) :
  map_get k (items w1) = map_get k (items w2) -> clock w1 = clock w2 ->
  result (make_has k) w1 = result (make_has k) w2.
Proof.
  intros Hk Hc. pose proof (get_result_local k w1 w2 Hk Hc) as G.
  change (snd (make_has k w1) = snd (make_has k w2)).
  rewrite !make_has_eq. cbn [snd]. now rewrite G.
Qed.

Lemma map_get_set_other (k k' : string) (r : raw) (l : list (string * raw)) :
  k <> k' -> map_get k (map_set k' r l) = map_get k l.
Proof.
  intros Hne. induction l as [|[k0 r0] t IH]; simpl.
  - apply String.eqb_neq in Hne. now rewrite Hne.
  - destruct (String.eqb k' k0) eqn:E; simpl.
    + apply String.eqb_eq in E. subst k0.
      apply String.eqb_neq in Hne. now rewrite Hne.
    + now rewrite IH.
Qed.

Lemma map_get_delete_other (k k' : string) (l : list (string * raw)) :
  k <> k' -> map_get k (map_delete k' l) = map_get k l.
Proof.
  intros Hne. induction l as [|[k0 r0] t IH]; simpl; [reflexivity|].
  destruct (String.eqb k0 k') eqn:E; simpl.
  - apply String.eqb_eq in E. subst k0.
    apply String.eqb_neq in Hne. now rewrite Hne.
  - now rewrite IH.
Qed.

Lemma map_get_in (k : string) (r : raw) (l : list (string * raw)) :
  map_get k l = Some r -> In (k, r) l.
Proof.
  induction l as [|[k0 r0] t IH]; simpl; [discriminate|].
  destruct (String.eqb k k0) eqn:E.
  - apply String.eqb_eq in E. subst k0. intros [= ->]. now left.
  - intros H. right. now apply IH.
Qed.

(** [get(k')] changes the entry under [k'] only, and not the clock. *)
Lemma make_get_frame (k k' : string) (w : world) :
  k <> k' ->
  map_get k (items (after (make_get k') w)) = map_get k (items w) /\
  clock (after (make_get k') w) = clock w /\
  denied (after (make_get k') w) = denied w.
Proof.
  intros Hne. unfold after at 1 2 3. rewrite make_get_eq.
  destruct (map_get k' (items w)) as [r|]; [|auto].
  destruct (expired_at (clock w) r); [|auto]. cbn [fst].
  rewrite items_emit, clock_emit, denied_emit.
  destruct (denied w) eqn:D; [auto|]. cbn [items with_items clock denied].
  rewrite map_get_delete_other by exact Hne. auto.
Qed.

(** ** The [keys()] scan *)

(** [has(k)] in [w], as a boolean. *)
Definition live (w : world) (k : string) : bool :=
  match result (make_has k) w with Ok b => b | Err _ => false end.

(** No stored entry reads as expired at the current time. *)
Definition none_expired (w : world) : bool :=
  forallb (fun kv => negb (expired_at (clock w) (snd kv))) (items w).

Lemma get_none_expired (k : string) (w : world) :
  none_expired w = true -> after (make_get k) w = w.
Proof.
  intros H. unfold after. rewrite make_get_eq.
  destruct (map_get k (items w)) as [r|] eqn:Hk; [|reflexivity].
  apply map_get_in in Hk. unfold none_expired in H. rewrite forallb_forall in H.
  specialize (H _ Hk). cbn [snd] in H. apply negb_true_iff in H. now rewrite H.
Qed.

Lemma has_none_expired (k : string) (w : world) :
  none_expired w = true -> make_has k w = (w, Ok (live w k)).
Proof.
  intros H. unfold live. rewrite make_has_eq, get_none_expired by exact H.
  unfold result at 2. rewrite make_has_eq. reflexivity.
Qed.

Lemma skipn_nth_error {A} (l : list A) (i : nat) (x : A) :
  nth_error l i = Some x -> skipn i l = x :: skipn (S i) l.
Proof.
  revert i. induction l as [|y l IH]; intros [|i]; simpl; try discriminate.
  - now intros [= ->].
  - apply IH.
Qed.

Lemma keys_loop_none_expired (fuel i : nat) (ks : list string) (w : world) :
  none_expired w = true -> (length (items w) < fuel + i)%nat ->
  keys_loop fuel i ks w =
  (w, Ok (ks ++ filter (fun k => negb (String.eqb k "") && live w k)
                  (skipn i (map fst (items w))))).
Proof.
  intros Hn. revert i ks. induction fuel as [|f IH]; intros i ks Hlen; simpl.
  - rewrite skipn_all2 by (rewrite length_map; lia). simpl. now rewrite app_nil_r.
  - unfold bind at 1, storage_length.
    destruct (i <? length (items w))%nat eqn:Hi.
    + apply Nat.ltb_lt in Hi. unfold bind at 1, storage_key.
      destruct (nth_error (map fst (items w)) i) as [k|] eqn:Hk.
      2:{ apply nth_error_None in Hk. rewrite length_map in Hk. lia. }
      rewrite (skipn_nth_error _ _ _ Hk). cbn [filter].
      destruct (String.eqb k "") eqn:Ek; cbn [negb andb].
      * apply IH. lia.
      * unfold bind at 1. rewrite has_none_expired by exact Hn.
        rewrite IH by lia. destruct (live w k); [|reflexivity].
        now rewrite <- app_assoc.
    + apply Nat.ltb_ge in Hi. rewrite skipn_all2 by (rewrite length_map; lia).
      simpl. unfold ret. now rewrite app_nil_r.
Qed.

(** X5: when no stored entry has expired, [keys()] leaves the store as it
    is and returns exactly the non-empty stored keys whose [has] is true,
    in the backend's order. *)
Theorem keys_exact_when_none_expired (w : world) (Hn : none_expired w = true) :
  make_keys w =
  (w, Ok (filter (fun k => negb (String.eqb k "") && live w k) (map fst (items w)))).
Proof.
  unfold make_keys, bind at 1, storage_length.
  rewrite keys_loop_none_expired by (exact Hn || lia). reflexivity.
Qed.

Lemma keys_exact_when_none_expired_witness :
  let w := mkWorld [("a"%string, envelope (JNum 1) None); (""%string, envelope (JNum 2) None);
                    ("b"%string, RText "{"); ("c"%string, envelope (JNum 3) (Some 50))]
                   None false 10 [] [] [] 0 in
  none_expired w = true /\ make_keys w = (w, Ok ["a"; "c"]%string).
Proof.
  cbv zeta. split; [reflexivity|].
  rewrite keys_exact_when_none_expired by reflexivity. reflexivity.
Defined.

(** [has(k')] keeps every key whose [has] is true in that state. *)
Lemma has_keeps_live (k k' : string) (w : world) :
  result (make_has k) w = Ok true ->
  result (make_has k) (after (make_has k') w) = Ok true.
Proof.
  intros Hk.
  assert (Ha : after (make_has k') w = after (make_get k') w)
    by (unfold after at 1; now rewrite make_has_eq).
  rewrite Ha.
  destruct (String.eqb k k') eqn:E.
  - apply String.eqb_eq in E. subst k'.
    assert (Hw : after (make_get k) w = w); [|now rewrite Hw].
    unfold result in Hk. rewrite make_has_eq in Hk. cbn [snd] in Hk.
    unfold after, result in *. rewrite make_get_eq in Hk |- *.
    destruct (map_get k (items w)) as [r|]; [|reflexivity].
    destruct (expired_at (clock w) r); [discriminate|reflexivity].
  - apply String.eqb_neq in E.
    destruct (make_get_frame k k' w E) as (H1 & H2 & _).
    rewrite (has_result_local k _ w H1 H2). exact Hk.
Qed.

Lemma keys_loop_S (f i : nat) (ks : list string) (w : world) :
  keys_loop (S f) i ks w =
  if (i <? length (items w))%nat then
    match nth_error (map fst (items w)) i with
    | None => keys_loop f (S i) ks w
    | Some k =>
        if String.eqb k "" then keys_loop f (S i) ks w
        else let (w1, r) := make_has k w in
             match r with
             | Ok h => keys_loop f (S i) (if h then ks ++ [k] else ks) w1
             | Err e => (w1, Err e)
             end
    end
  else (w, Ok ks).
Proof.
  simpl. unfold bind at 1, storage_length.
  destruct (i <? length (items w))%nat; [|reflexivity].
  unfold bind at 1, storage_key.
  destruct (nth_error (map fst (items w)) i) as [k|]; [|reflexivity].
  destruct (String.eqb k ""); reflexivity.
Qed.

Lemma keys_loop_sound (fuel i : nat) (ks ks' : list string) (w w' : world) :
  (forall k, In k ks -> result (make_has k) w = Ok true) ->
  keys_loop fuel i ks w = (w', Ok ks') ->
  forall k, In k ks' -> result (make_has k) w' = Ok true.
Proof.
  revert i ks w. induction fuel as [|f IH]; intros i ks w Hks Hr.
  - simpl in Hr. unfold ret in Hr. injection Hr as <- <-. exact Hks.
  - rewrite keys_loop_S in Hr.
    destruct (i <? length (items w))%nat; [|injection Hr as <- <-; exact Hks].
    destruct (nth_error (map fst (items w)) i) as [k0|]; [|eapply IH; eauto].
    destruct (String.eqb k0 ""); [eapply IH; eauto|].
    destruct (make_has_total k0 w) as (w1 & b & Hh). rewrite Hh in Hr.
    apply (IH (S i) (if b then ks ++ [k0] else ks) w1); [|exact Hr].
    assert (Hw1 : w1 = after (make_has k0) w) by (unfold after; now rewrite Hh).
    intros k Hin. rewrite Hw1. destruct b.
    + apply in_app_or in Hin as [Hin|[<-|[]]].
      * apply has_keeps_live. now apply Hks.
      * apply has_keeps_live. unfold result. now rewrite Hh.
    + apply has_keeps_live. now apply Hks.
Qed.

(** X6: every key [keys()] returns still has a defined value once the scan
    is over: [has] is true for it in the resulting state. *)
Theorem keys_listed_are_live (w : world) (ks : list string) (k : string)
  (Hks : result make_keys w = Ok ks) (Hin : In k ks) :
  result (make_has k) (after make_keys w) = Ok true.
Proof.
  unfold make_keys, bind, storage_length, result, after in *. cbn [fst snd] in *.
  destruct (keys_loop (S (length (items w))) 0 [] w) as [w' [ks'|e]] eqn:E;
    [|discriminate].
  cbn [snd fst] in *. injection Hks as ->.
  refine (keys_loop_sound _ 0 [] ks w w' _ E k Hin). intros _ [].
Qed.

Lemma keys_listed_are_live_witness :
  let w := mkWorld [("b"%string, envelope (JNum 1) (Some 3));
                    ("c"%string, envelope (JNum 2) None);
                    ("d"%string, envelope (JNum 3) None)] None false 10 [] [] [] 0 in
  result make_keys w = Ok ["d"%string] /\ In "d"%string ["d"%string] /\
  result (make_has "d") (after make_keys w) = Ok true.
Proof.
  cbv zeta. split; [reflexivity|]. split; [now left|].
  apply (keys_listed_are_live _ ["d"%string]); [reflexivity|now left].
Defined.

(** ** Lazy expiry *)

(** X8: reading an expired entry returns [undefined] and publishes one
    [Remove{k}]. On a storage that accepts the removal the entry is gone and
    a second [get] returns [undefined] silently; on a storage that refuses
    it the entry stays and a second [get] again returns [undefined] and
    publishes [Remove{k}] again. *)
Theorem get_expired_purges_once (w : world) (k : string) (r : raw)
  (Hk : map_get k (items w) = Some r) (He : expired_at (clock w) r = true) :
  let w1 := after (make_get k) w in
  result (make_get k) w = Ok JSUndef /\
  pub w1 = pub w ++ [CRemove k] /\
  (denied w = false -> map_get k (items w1) = None /\ make_get k w1 = (w1, Ok JSUndef)) /\
  (denied w = true -> items w1 = items w /\
     result (make_get k) w1 = Ok JSUndef /\
     pub (after (make_get k) w1) = pub w1 ++ [CRemove k]).
Proof.
  cbv zeta. unfold result, after. rewrite make_get_eq, Hk, He. cbn [fst snd].
  split; [reflexivity|].
  destruct (denied w) eqn:D; (split; [reflexivity|]); split; try discriminate; intros _.
  - rewrite items_emit. split; [reflexivity|].
    rewrite make_get_eq, items_emit, Hk, clock_emit, He, denied_emit, D. cbn [fst snd].
    split; reflexivity.
  - assert (N : map_get k (items (after (emit (CRemove k)) (with_items w (map_delete k (items w)))))
                = None) by (rewrite items_emit; apply map_get_delete_same).
    split; [exact N|]. now apply make_get_absent.
Qed.

Lemma get_expired_purges_once_witness :
  let w := mkWorld [("k"%string, envelope (JNum 1) (Some 3))] None true 10 [] [] [] 0 in
  (map_get "k" (items w) = Some (envelope (JNum 1) (Some 3)) /\
   expired_at (clock w) (envelope (JNum 1) (Some 3)) = true) /\
  pub (after (make_get "k") (after (make_get "k") w)) = [CRemove "k"; CRemove "k"].
Proof.
  cbv zeta. split; [split; reflexivity|].
  destruct (get_expired_purges_once
              (mkWorld [("k"%string, envelope (JNum 1) (Some 3))] None true 10 [] [] [] 0)
              "k" (envelope (JNum 1) (Some 3)) eq_refl eq_refl) as (_ & P1 & _ & H).
  destruct (H eq_refl) as (_ & _ & P2). rewrite P2, P1. reflexivity.
Defined.

(** ** Documents [set] did not write *)

(** X9: an entry whose text does not parse, or parses to a JSON document
    that is not an object (a number, string, array, boolean or null), reads
    as [undefined]: [get] returns [undefined], removes nothing and publishes
    nothing, and [has] is false. *)
Theorem get_non_object_undefined (w : world) (k : string) (r : raw)
  (Hk : map_get k (items w) = Some r) (Hr : forall fs, r <> RDoc (JObj fs)) :
  make_get k w = (w, Ok JSUndef) /\ make_has k w = (w, Ok false).
Proof.
  assert (E : expired_at (clock w) r = false /\ read_value r = JSUndef).
  { destruct r as [j|s]; [|split; reflexivity].
    destruct j as [|[]|z|s|xs|fs]; try (split; reflexivity);
      try (unfold expired_at, read_value; simpl; rewrite andb_false_r;
           destruct (negb _); split; reflexivity).
    exfalso. exact (Hr fs eq_refl). }
  destruct E as [E1 E2].
  assert (G : make_get k w = (w, Ok JSUndef)) by (rewrite make_get_eq, Hk, E1, E2; reflexivity).
  split; [exact G|]. rewrite make_has_eq. unfold after, result. now rewrite G.
Qed.

Lemma get_non_object_undefined_witness :
  let w := mkWorld [("n"%string, RDoc (JNum 5)); ("t"%string, RText "{")]
                   None false 10 [] [] [] 0 in
  (map_get "n" (items w) = Some (RDoc (JNum 5)) /\
   (forall fs, RDoc (JNum 5) <> RDoc (JObj fs))) /\
  make_get "n" w = (w, Ok JSUndef).
Proof.
  cbv zeta.
  assert (H : forall fs, RDoc (JNum 5) <> RDoc (JObj fs)) by (intros fs; discriminate).
  split; [split; [reflexivity|exact H]|].
  exact (proj1 (get_non_object_undefined
                 (mkWorld [("n"%string, RDoc (JNum 5)); ("t"%string, RText "{")]
                    None false 10 [] [] [] 0) "n" (RDoc (JNum 5)) eq_refl H)).
Defined.

(** ** Storing [undefined] *)

(** X10: [set(k, undefined)], with or without a TTL, stores an envelope
    without [v] ([JSON.stringify] drops the property) and publishes
    [Set{k}] when the write succeeds, yet right afterwards [get(k)] is
    [undefined] and [has(k)] is false. *)
Theorem set_undefined_reads_undefined (w : world) (k : string) (ttl : option Z)
  (Hacc : set_accepted w k JSUndef ttl = true) :
  let w1 := after (make_set k JSUndef ttl) w in
  pub w1 = pub w ++ [CSet k] /\
  map_get k (items w1) <> None /\
  result (make_get k) w1 = Ok JSUndef /\
  result (make_has k) w1 = Ok false.
Proof.
  cbv zeta.
  assert (Hw1 : after (make_set k JSUndef ttl) w =
                after (emit (CSet k)) (with_items w (map_set k (set_raw w JSUndef ttl) (items w))))
    by (unfold after at 1; now rewrite make_set_spec, Hacc).
  rewrite Hw1.
  set (w1 := after (emit (CSet k)) (with_items w (map_set k (set_raw w JSUndef ttl) (items w)))).
  assert (Hit : map_get k (items w1) = Some (set_raw w JSUndef ttl)) by apply map_get_set_same.
  assert (Hv : read_value (set_raw w JSUndef ttl) = JSUndef).
  { unfold set_raw, payload. destruct ttl as [d|]; [destruct (d =? 0)|]; reflexivity. }
  assert (G : result (make_get k) w1 = Ok JSUndef).
  { unfold result. rewrite make_get_eq, Hit.
    destruct (expired_at (clock w1) _); [reflexivity|]. cbn [snd]. now rewrite Hv. }
  split; [reflexivity|]. split; [now rewrite Hit|]. split; [exact G|].
  unfold result at 1. rewrite make_has_eq. cbn [snd]. now rewrite G.
Qed.

Lemma set_undefined_reads_undefined_witness :
  set_accepted (empty_memory 0) "k" JSUndef (Some 100) = true /\
  result (make_has "k") (after (make_set "k" JSUndef (Some 100)) (empty_memory 0)) = Ok false.
Proof.
  split; [reflexivity|].
  apply (set_undefined_reads_undefined (empty_memory 0) "k" (Some 100) eq_refl).
Defined.

(** ** [clear()] *)

(** X11: [clear()] always publishes exactly one [Clear]. On a storage that
    accepts it every entry is gone, it returns normally and [keys()] is
    then empty; on a storage that refuses it the entries stay and the
    SecurityError reaches the caller. *)
Theorem clear_publishes_once (w : world) :
  pub (after make_clear w) = pub w ++ [CClear] /\
  (denied w = false ->
   result make_clear w = Ok tt /\ items (after make_clear w) = [] /\
   result make_keys (after make_clear w) = Ok []) /\
  (denied w = true ->
   result make_clear w = Err SecurityError /\ items (after make_clear w) = items w).
Proof.
  unfold make_clear, try_finally, storage_clear, result, after.
  destruct (denied w) eqn:D; cbn [fst snd].
  - split; [reflexivity|]. split; [discriminate|]. intros _. split; reflexivity.
  - split; [reflexivity|]. split; [|discriminate]. intros _. repeat split.
Qed.

Lemma clear_publishes_once_witness :
  let w := mkWorld [("k"%string, envelope (JNum 1) None)] None true 0 [] [] [] 0 in
  denied w = true /\ result make_clear w = Err SecurityError /\
  items (after make_clear w) = [("k"%string, envelope (JNum 1) None)].
Proof.
  cbv zeta. split; [reflexivity|].
  apply (proj2 (proj2 (clear_publishes_once
           (mkWorld [("k"%string, envelope (JNum 1) None)] None true 0 [] [] [] 0))) eq_refl).
Defined.

(** ** Key order *)

Lemma map_fst_map_set (k : string) (r : raw) (l : list (string * raw)) :
  map fst (map_set k r l) =
  if existsb (String.eqb k) (map fst l) then map fst l else map fst l ++ [k].
Proof.
  induction l as [|[k' r'] t IH]; [reflexivity|]. cbn [map_set map fst existsb].
  destruct (String.eqb k k') eqn:E; cbn [orb map fst].
  - apply String.eqb_eq in E. now subst k'.
  - rewrite IH. now destruct (existsb (String.eqb k) (map fst t)).
Qed.

(** X12: a successful [set(k, ...)] keeps the backend's key order: an
    existing key stays where it is (every key keeps its position) and a new
    key goes after all the others. *)
Theorem set_keeps_key_order (w : world) (k : string) (v : jsval) (ttl : option Z)
  (Hacc : set_accepted w k v ttl = true) :
  map fst (items (after (make_set k v ttl) w)) =
  if existsb (String.eqb k) (map fst (items w)) then map fst (items w)
  else map fst (items w) ++ [k].
Proof.
  unfold after. rewrite make_set_spec, Hacc. cbn [fst]. rewrite items_emit.
  apply map_fst_map_set.
Qed.

Lemma set_keeps_key_order_witness :
  let w := mkWorld [("a"%string, envelope (JNum 1) None); ("b"%string, envelope (JNum 2) None)]
                   None false 0 [] [] [] 0 in
  set_accepted w "a" (JSNum 3) None = true /\
  map fst (items (after (make_set "a" (JSNum 3) None) w)) = ["a"; "b"]%string.
Proof.
  cbv zeta. split; [reflexivity|].
  apply (set_keeps_key_order
           (mkWorld [("a"%string, envelope (JNum 1) None); ("b"%string, envelope (JNum 2) None)]
              None false 0 [] [] [] 0) "a" (JSNum 3) None eq_refl).
Defined.

(** ** Independence of keys *)

(** X13: operations on one key do not change what [get] returns for another:
    for [k <> k'], [get(k)] gives the same result before and after
    [set(k', ...)], [remove(k')] or [get(k')] (which may purge [k']). *)
Theorem get_other_key_unaffected (w : world) (k k' : string) (v : jsval) (ttl : option Z)
  (Hne : k <> k') :
  result (make_get k) (after (make_set k' v ttl) w) = result (make_get k) w /\
  result (make_get k) (after (make_remove k') w) = result (make_get k) w /\
  result (make_get k) (after (make_get k') w) = result (make_get k) w.
Proof.
  split; [|split].
  - apply get_result_local; unfold after; rewrite make_set_spec;
      destruct (set_accepted w k' v ttl); cbn [fst]; try reflexivity.
    rewrite items_emit. cbn [items with_items]. now apply map_get_set_other.
  - unfold make_remove, try_finally, removeItem, after.
    apply get_result_local; destruct (denied w); cbn [fst]; try reflexivity.
    cbn [items with_items emit]. now apply map_get_delete_other.
  - destruct (make_get_frame k k' w Hne) as (H1 & H2 & _).
    now apply get_result_local.
Qed.

Lemma get_other_key_unaffected_witness :
  let w := mkWorld [("a"%string, envelope (JNum 1) None); ("b"%string, envelope (JNum 2) (Some 3))]
                   None false 10 [] [] [] 0 in
  "a"%string <> "b"%string /\
  result (make_get "a") (after (make_get "b") w) = Ok (JSNum 1).
Proof.
  cbv zeta. split; [discriminate|].
  rewrite (proj2 (proj2 (get_other_key_unaffected
     (mkWorld [("a"%string, envelope (JNum 1) None); ("b"%string, envelope (JNum 2) (Some 3))]
        None false 10 [] [] [] 0) "a" "b" JSNull None ltac:(discriminate)))).
  reflexivity.
Defined.

(** ** Subscriptions *)

Lemma listener_eqb_refl (l : listener) : listener_eqb l l = true.
Proof.
  induction l as [id|cid p inner IH]; simpl; [apply Nat.eqb_refl|].
  now rewrite Nat.eqb_refl, String.eqb_refl, IH.
Qed.

(** X4: the emitter holds a set of functions: subscribing a function that is
    already subscribed changes nothing, so it is called once per event, and
    the handle of any of its subscriptions removes it entirely, leaving the
    other listeners as they were. *)
Theorem subscribe_twice_once (w : world) (fn : listener) :
  let w1 := after (make_subscribe fn) w in
  let w2 := after (make_subscribe fn) w1 in
  subs w2 = subs w1 /\
  exists h, result (make_subscribe fn) w1 = Ok h /\
    subs (after h w2) = filter (fun l => negb (listener_eqb l fn)) (subs w).
Proof.
  cbv zeta. unfold make_subscribe, on, after, result. cbn [fst snd subs with_subs].
  assert (Hin : existsb (listener_eqb fn)
                  (if existsb (listener_eqb fn) (subs w) then subs w else subs w ++ [fn]) = true).
  { destruct (existsb (listener_eqb fn) (subs w)) eqn:E; [exact E|].
    rewrite existsb_app. cbn [existsb]. now rewrite listener_eqb_refl, orb_true_r. }
  rewrite Hin. split; [reflexivity|].
  exists (off fn). split; [reflexivity|]. unfold off. cbn [fst subs with_subs].
  destruct (existsb (listener_eqb fn) (subs w)); [reflexivity|].
  rewrite filter_app. cbn [filter]. rewrite listener_eqb_refl. cbn [negb].
  apply app_nil_r.
Qed.

(** Every closure id in [l] was allocated before [n]. *)
Fixpoint cids_below (n : nat) (l : listener) : bool :=
  match l with
  | Recorder _ => true
  | Filtered c _ inner => (c <? n)%nat && cids_below n inner
  end.

(** The closure ids of the registered listeners are all below the next id
    to allocate (true of every state reached from a store with no
    listener). *)
Definition cids_fresh (w : world) : bool := forallb (cids_below (next_cid w)) (subs w).

Lemma fresh_cid_not_subscribed (n c : nat) (p : string) (x : listener) (ss : list listener) :
  forallb (cids_below n) ss = true -> (n <= c)%nat ->
  existsb (listener_eqb (Filtered c p x)) ss = false.
Proof.
  intros H Hc. induction ss as [|l ss IH]; [reflexivity|].
  cbn [forallb existsb] in *. apply andb_prop in H as [H1 H2].
  rewrite (IH H2), orb_false_r.
  destruct l as [id|c' p' l']; [reflexivity|]. cbn [listener_eqb cids_below] in *.
  apply andb_prop in H1 as [H1 _]. apply Nat.ltb_lt in H1.
  replace (Nat.eqb c c') with false by (symmetry; apply Nat.eqb_neq; lia). reflexivity.
Qed.

Lemma deliver_nested (c1 c2 c3 : nat) (p q : string) (fn : listener) (ch : change) :
  deliver (Filtered c1 p (Filtered c2 q fn)) ch = deliver (Filtered c3 (p ++ ":" ++ q) fn) ch.
Proof.
  assert (Hl : (String.length (p ++ ":" ++ q) + 1 =
                (String.length p + 1) + (String.length q + 1))%nat)
    by (rewrite !str_length_app; simpl; lia).
  destruct ch as [k|k|]; cbn [deliver]; [| |reflexivity];
    rewrite nested_prefix_split, slice_slice, Hl;
    destruct (String.prefix (p ++ ":") k); cbn [andb]; reflexivity.
Qed.

(** X2: subscribing through nested namespaces, [withPrefix(withPrefix(s, p),
    q).subscribe(fn)], makes [fn] receive exactly the events that
    [withPrefix(s, p + ":" + q).subscribe(fn)] would make it receive, for
    every event the store publishes. *)
Theorem withPrefix_nested_subscribe (w : world) (p q : string) (fn : listener)
  (Hf : cids_fresh w = true) (ch : change) :
  flat_map (fun l => deliver l ch)
    (subs (after (subscribe (withPrefix (withPrefix make p) q) fn) w)) =
  flat_map (fun l => deliver l ch)
    (subs (after (subscribe (withPrefix make (p ++ ":" ++ q)) fn) w)).
Proof.
  unfold cids_fresh in Hf.
  unfold withPrefix. cbn [subscribe].
  unfold bind, alloc_cid, after. cbn [subscribe make fst].
  unfold make_subscribe, on. cbn [fst subs next_cid with_subs].
  rewrite !(fresh_cid_not_subscribed (next_cid w)) by (exact Hf || lia).
  rewrite !flat_map_app. cbn [flat_map]. now rewrite (deliver_nested _ _ (next_cid w)).
Qed.

Lemma withPrefix_nested_subscribe_witness :
  cids_fresh (empty_memory 0) = true /\
  flat_map (fun l => deliver l (CSet "a:b:k"))
    (subs (after (subscribe (withPrefix (withPrefix make "a") "b") (Recorder 1)) (empty_memory 0)))
  = [(1%nat, CSet "k")].
Proof.
  split; [reflexivity|].
  rewrite (withPrefix_nested_subscribe (empty_memory 0) "a" "b" (Recorder 1) eq_refl).
  reflexivity.
Defined.

(** X3: unlike [make]'s own [subscribe], a namespaced [subscribe] registers
    a new closure on every call: subscribing the same function twice through
    [withPrefix(store, p)] registers two listeners, and the function receives
    every event of the namespace twice. *)
Theorem withPrefix_subscribe_twice (w : world) (p : string) (fn : listener)
  (Hf : cids_fresh w = true) (ch : change) :
  let sub := subscribe (withPrefix make p) fn in
  let n := next_cid w in
  subs (after sub (after sub w)) = subs w ++ [Filtered n p fn; Filtered (S n) p fn] /\
  flat_map (fun l => deliver l ch) (subs (after sub (after sub w))) =
  flat_map (fun l => deliver l ch) (subs w) ++
  deliver (Filtered n p fn) ch ++ deliver (Filtered n p fn) ch.
Proof.
  cbv zeta. unfold cids_fresh in Hf.
  assert (E : subs (after (subscribe (withPrefix make p) fn)
                      (after (subscribe (withPrefix make p) fn) w)) =
              subs w ++ [Filtered (next_cid w) p fn; Filtered (S (next_cid w)) p fn]).
  { unfold withPrefix. cbn [subscribe].
    unfold bind, alloc_cid, after. cbn [subscribe make fst].
    unfold make_subscribe, on. cbn [fst subs next_cid with_subs].
    rewrite (fresh_cid_not_subscribed (next_cid w) (next_cid w)) by (exact Hf || lia).
    rewrite existsb_app, (fresh_cid_not_subscribed (next_cid w) (S (next_cid w)))
      by (exact Hf || lia).
    cbn [existsb listener_eqb]. replace (Nat.eqb (S (next_cid w)) (next_cid w)) with false
      by (symmetry; apply Nat.eqb_neq; lia). cbn [andb orb].
    now rewrite <- app_assoc. }
  split; [exact E|]. rewrite E, !flat_map_app. cbn [flat_map]. now rewrite app_nil_r.
Qed.

Lemma withPrefix_subscribe_twice_witness :
  cids_fresh (empty_memory 0) = true /\
  flat_map (fun l => deliver l (CSet "p:k"))
    (subs (after (subscribe (withPrefix make "p") (Recorder 1))
             (after (subscribe (withPrefix make "p") (Recorder 1)) (empty_memory 0))))
  = [(1%nat, CSet "k"); (1%nat, CSet "k")].
Proof.
  split; [reflexivity|].
  rewrite (proj2 (withPrefix_subscribe_twice (empty_memory 0) "p" (Recorder 1) eq_refl
                    (CSet "p:k"))).
  reflexivity.
Defined.

(** ** Namespaced [clear()] when nothing has expired *)

Lemma filter_filter {A} (f h : A -> bool) (l : list A) :
  filter f (filter h l) = filter (fun a => h a && f a) l.
Proof.
  induction l as [|x l IH]; [reflexivity|]. cbn [filter].
  destruct (h x); cbn [filter andb]; [destruct (f x)|]; now rewrite IH.
Qed.

Lemma filter_all_true {A} (f : A -> bool) (l : list A) :
  (forall a, f a = true) -> filter f l = l.
Proof.
  intros H. induction l as [|x l IH]; [reflexivity|]. cbn [filter]. now rewrite H, IH.
Qed.

Lemma existsb_eqb_filter (k : string) (h : string -> bool) (l : list string) :
  existsb (String.eqb k) (filter h l) = h k && existsb (String.eqb k) l.
Proof.
  induction l as [|x l IH]; cbn [filter existsb]; [now rewrite andb_false_r|].
  destruct (String.eqb k x) eqn:E.
  - apply String.eqb_eq in E. subst x.
    destruct (h k); cbn [existsb andb orb]; [now rewrite String.eqb_refl|exact IH].
  - destruct (h x); cbn [existsb orb]; rewrite ?E; exact IH.
Qed.

Lemma for_each_remove (l : list string) (g : string -> bool) (w : world) :
  denied w = false ->
  result (for_each l (fun k => if g k then make_remove k else ret tt)) w = Ok tt /\
  denied (after (for_each l (fun k => if g k then make_remove k else ret tt)) w) = false /\
  items (after (for_each l (fun k => if g k then make_remove k else ret tt)) w) =
  filter (fun kv => negb (g (fst kv) && existsb (String.eqb (fst kv)) l)) (items w).
Proof.
  revert w. induction l as [|x l IH]; intros w D.
  - cbn [for_each]. unfold result, after, ret. cbn [fst snd].
    split; [reflexivity|]. split; [exact D|].
    symmetry. apply filter_all_true. intros kv. cbn [existsb]. now rewrite andb_false_r.
  - cbn [for_each]. unfold result, after, bind.
    destruct (g x) eqn:Gx.
    + set (w' := after (emit (CRemove x)) (with_items w (map_delete x (items w)))).
      assert (Hr : make_remove x w = (w', Ok tt))
        by (unfold make_remove, try_finally, removeItem; now rewrite D).
      rewrite Hr.
      destruct (IH w' D) as (R & D' & I). unfold result, after in R, D', I.
      split; [exact R|]. split; [exact D'|]. rewrite I.
      unfold w'. rewrite items_emit. cbn [items with_items].
      unfold map_delete. rewrite filter_filter.
      apply filter_ext. intros [k r]. cbn [fst existsb].
      destruct (String.eqb k x) eqn:E; cbn [negb andb orb].
      * apply String.eqb_eq in E. subst x. now rewrite Gx.
      * reflexivity.
    + change ((ret tt : M unit) w) with (w, @Ok unit tt). cbv beta iota.
      destruct (IH w D) as (R & D' & I). unfold result, after in R, D', I.
      split; [exact R|]. split; [exact D'|]. rewrite I.
      apply filter_ext. intros [k r]. cbn [fst existsb].
      destruct (String.eqb k x) eqn:E; [|reflexivity].
      apply String.eqb_eq in E. subst x. now rewrite Gx.
Qed.

Lemma prefix_delim_empty (p : string) : String.prefix (p ++ ":") "" = false.
Proof. destruct p; reflexivity. Qed.

(** X7: on a storage that accepts removals and holds no expired entry,
    [withPrefix(store, p).clear()] returns normally and removes exactly the
    entries whose key starts with [p + ":"] and whose [has] is true; every
    other entry stays, in particular prefixed entries that read as
    [undefined] (unparseable text, or stored [undefined]). *)
Theorem withPrefix_clear_none_expired (w : world) (p : string)
  (Hd : denied w = false) (Hn : none_expired w = true) :
  result (clear (withPrefix make p)) w = Ok tt /\
  items (after (clear (withPrefix make p)) w) =
  filter (fun kv => negb (String.prefix (p ++ ":") (fst kv) && live w (fst kv))) (items w).
Proof.
  unfold withPrefix. cbn [clear keys remove make].
  unfold result, after, bind. rewrite keys_exact_when_none_expired by exact Hn.
  cbv beta iota.
  destruct (for_each_remove
              (filter (fun k => negb (String.eqb k "") && live w k) (map fst (items w)))
              (String.prefix (p ++ ":")) w Hd) as (R & _ & I).
  unfold result, after in R, I.
  split; [exact R|]. rewrite I.
  apply filter_ext_in. intros [k r] Hin. cbn [fst].
  rewrite existsb_eqb_filter.
  assert (Hk : existsb (String.eqb k) (map fst (items w)) = true).
  { apply existsb_exists. exists k. split; [|apply String.eqb_refl].
    apply (in_map fst) in Hin. exact Hin. }
  rewrite Hk, andb_true_r.
  destruct (String.prefix (p ++ ":") k) eqn:Hp; [|reflexivity]. cbn [andb].
  destruct (String.eqb k "") eqn:Ek; [|reflexivity].
  apply String.eqb_eq in Ek. subst k. now rewrite prefix_delim_empty in Hp.
Qed.

Lemma withPrefix_clear_none_expired_witness :
  let w := mkWorld [("a:x"%string, envelope (JNum 1) None); ("a:u"%string, RText "{");
                    ("b:y"%string, envelope (JNum 2) None)] None false 5 [] [] [] 0 in
  denied w = false /\ none_expired w = true /\
  items (after (clear (withPrefix make "a")) w) =
  [("a:u"%string, RText "{"); ("b:y"%string, envelope (JNum 2) None)].
Proof.
  cbv zeta. split; [reflexivity|]. split; [reflexivity|].
  rewrite (proj2 (withPrefix_clear_none_expired
     (mkWorld [("a:x"%string, envelope (JNum 1) None); ("a:u"%string, RText "{");
               ("b:y"%string, envelope (JNum 2) None)] None false 5 [] [] [] 0) "a"
     eq_refl eq_refl)).
  reflexivity.
Defined.
